(** * Stable marriage: devices, capacity-bounded nodes and the probe search

    A shallow embedding of [stablemarriage/stable_marriage.py] and of the
    two standard-library modules it drives ([heapq], [random.sample]),
    followed by the properties of the assignment phase.

    The package declares Python 3.7 ([setup.py]); the standard library
    is modelled as of that version.

    Python objects are references.  [Node.__eq__] and [Device.__eq__]
    compare the [id] field, which [__init__] draws from a class counter, so
    an object is identified with its [id]; a collection of nodes or devices
    is a collection of ids.  A field that is assigned once in [__init__]
    and never again ([Device.priority], [Device.connected_node]) is a
    function of the identity; a field that is mutated ([Node.devices], the
    [Probe] of a device) lives in a store. *)

From Stdlib Require Import ZArith Lia.
From stdpp Require Import base decidable option list sets gmap fin_maps fin_sets.

Open Scope Z_scope.
Open Scope nat_scope.

(** ** Exceptions *)

Inductive exn : Type :=
| IndexError   (* list index out of range *)
| KeyError     (* dict key absent *)
| ValueError   (* raised by get_resources and by random.sample *)
| Diverged     (* not a Python exception: a loop outran its iteration budget *)
| Dangling.    (* not a Python exception: a reference to an object the store lacks *)

Inductive result (A : Type) : Type :=
| Ok (a : A)
| Raise (e : exn).
Arguments Ok {A} a.
Arguments Raise {A} e.

#[export] Instance result_bind : MBind result := λ A B k c,
  match c with
  | Ok a => k a
  | Raise e => Raise e
  end.

(** [l[i]] and [l[i] = x] on a Python list, for a non-negative index. *)
Definition list_get {A : Type} (l : list A) (i : nat) : result A :=
  match l !! i with
  | Some x => Ok x
  | None => Raise IndexError
  end.

Definition list_set {A : Type} (l : list A) (i : nat) (x : A) : result (list A) :=
  if decide (i < length l) then Ok (<[i := x]> l) else Raise IndexError.

(** ** Priority *)

Inductive Priority : Type := MIN | MIN_MED | MED | MED_MAX | MAX.

(** [MIN, MIN_MED, MED, MED_MAX, MAX = range(1, 5 + 1)] *)
Definition value (p : Priority) : Z :=
  match p with
  | MIN => 1
  | MIN_MED => 2
  | MED => 3
  | MED_MAX => 4
  | MAX => 5
  end%Z.

Abbreviation Device := nat (only parsing).
Abbreviation NodeId := nat (only parsing).

(** ** Node *)

Record Node : Type := mkNode {
  id : NodeId;
  resources : Z;
  devices : list Device;
  neighbors : gset NodeId
}.

Definition set_devices (n : Node) (h : list Device) : Node :=
  {| id := id n; resources := resources n; devices := h; neighbors := neighbors n |}.

(** [Node(resources)], with the id the class counter hands out. *)
Definition Node_init (i : NodeId) (r : Z) : Node :=
  {| id := i; resources := r; devices := []; neighbors := ∅ |}.

Definition add_neighbor (n : Node) (m : NodeId) : Node :=
  {| id := id n; resources := resources n; devices := devices n;
     neighbors := neighbors n ∪ {[m]} |}.

Definition get_neighbors (n : Node) : gset NodeId := neighbors n.

(** ** Probe *)

(** [frontier] is a dict; [list(self.frontier.keys())[-1]] reads its most
    recently inserted key, so the entries are kept in insertion order. *)
Record Probe : Type := mkProbe {
  distance : nat;
  frontier : list (nat * gset NodeId);
  visited : gset NodeId
}.

Definition Probe_init (node : NodeId) : Probe :=
  {| distance := 0; frontier := [(0, {[node]})]; visited := ∅ |}.

Fixpoint dict_get (fr : list (nat * gset NodeId)) (k : nat) : result (gset NodeId) :=
  match fr with
  | [] => Raise KeyError
  | (k', s) :: fr' => if decide (k' = k) then Ok s else dict_get fr' k
  end.

(** [list(d.keys())[-1]] *)
Definition last_key (fr : list (nat * gset NodeId)) : result nat :=
  match last fr with
  | Some (k, _) => Ok k
  | None => Raise IndexError
  end.

(** [d.setdefault(k, set())] followed by [d[k].update(s)] *)
Fixpoint dict_update (fr : list (nat * gset NodeId)) (k : nat) (s : gset NodeId)
  : list (nat * gset NodeId) :=
  match fr with
  | [] => [(k, ∅ ∪ s)]
  | (k', s') :: fr' =>
      if decide (k' = k) then (k', s' ∪ s) :: fr' else (k', s') :: dict_update fr' k s
  end.

(** ** Randomness *)

(** The generator is a stream of naturals, read at a position that the
    caller advances; [randbelow n] at position [t] is [rnd t mod n].  Every
    statement below holds for every stream. *)
Section Random.

Variable rnd : nat → nat.

Definition randbelow (t : nat) (n : nat) : nat := rnd t mod n.

(** The selection loop of [random.sample]: [for i in range(k)] with a pool
    of [n] items, [k'] iterations left.  This is the branch the library
    takes for a small population; for a large one it draws positions into
    a set until it has [k] distinct ones, which returns the same kind of
    sample. *)
Fixpoint sample_loop {A : Type} (t : nat) (pool : list A) (n i k' : nat)
  : result (list A) :=
  match k' with
  | 0 => Ok []
  | S k'' =>
      let j := randbelow (t + i) (n - i) in
      x ← list_get pool j;
      moved ← list_get pool (n - i - 1);
      pool' ← list_set pool j moved;
      rest ← sample_loop t pool' n (S i) k'';
      Ok (x :: rest)
  end.

(** [random.sample(population, k)]: [ValueError] unless [0 <= k <= n]. *)
Definition random_sample {A : Type} (t : nat) (population : list A) (k : Z)
  : result (list A) :=
  let n := length population in
  if decide (0 ≤ k ∧ k ≤ Z.of_nat n)%Z then
    sample_loop t population n 0 (Z.to_nat k)
  else Raise ValueError.

(** [range(a, b)] as a list *)
Definition range (a b : Z) : list Z :=
  (λ i, a + Z.of_nat i)%Z <$> seq 0 (Z.to_nat (b - a)).

Fixpoint insort (x : Z) (l : list Z) : list Z :=
  match l with
  | [] => [x]
  | y :: l' => if decide (x ≤ y)%Z then x :: y :: l' else y :: insort x l'
  end.

(** [sorted(l)] on integers *)
Definition sorted (l : list Z) : list Z := foldr insort [] l.

(** [zip] stops at the shorter argument. *)
Definition constrained_sum_sample_pos (t : nat) (n total : Z) : result (list Z) :=
  sampled ← random_sample t (range 1 total) (n - 1);
  let dividers := sorted sampled in
  Ok ((λ ab : Z * Z, ab.1 - ab.2)%Z <$> zip (dividers ++ [total]) (0%Z :: dividers)).

Definition get_resources (t : nat) (N U : Z) : result (list Z) :=
  if decide (U < N)%Z then Raise ValueError
  else constrained_sum_sample_pos t N U.

(** [rand_from_set(rset)], that is [random.sample(rset, 1)[0]]: the set is
    laid out as a tuple and one position is drawn.  (From Python 3.11 on
    [random.sample] refuses a set.) *)
Definition rand_from_set (t : nat) (rset : gset NodeId) : result NodeId :=
  l ← random_sample t (elements rset) 1;
  list_get l 0.

End Random.

Section Program.

(** The attributes a device receives in [Device.__init__]. *)
Variable priority : Device → Priority.
Variable connected_node : Device → NodeId.

(** The random stream of the run. *)
Variable rnd : nat → nat.

(** [Device.__lt__] and [Device.__eq__] *)
Definition Device_lt (self other : Device) : bool :=
  (value (priority self) <? value (priority other))%Z.

Definition Device_eq (self other : Device) : bool := bool_decide (self = other).

(** ** heapq *)

(** The [while pos > startpos] loop of [_siftdown]; returns the heap and
    the position at which the loop stopped.  [budget] caps the iterations;
    [_siftdown] grants [pos], one per position the item can climb. *)
Fixpoint siftdown_loop (budget : nat) (heap : list Device) (startpos pos : nat)
    (newitem : Device) : result (list Device * nat) :=
  if decide (startpos < pos) then
    match budget with
    | 0 => Raise Diverged
    | S budget' =>
        let parentpos := Nat.shiftr (pos - 1) 1 in
        parent ← list_get heap parentpos;
        if Device_lt newitem parent then
          heap' ← list_set heap pos parent;
          siftdown_loop budget' heap' startpos parentpos newitem
        else Ok (heap, pos)
    end
  else Ok (heap, pos).

Definition siftdown (heap : list Device) (startpos pos : nat) : result (list Device) :=
  newitem ← list_get heap pos;
  '(heap', pos') ← siftdown_loop pos heap startpos pos newitem;
  list_set heap' pos' newitem.

(** The [while childpos < endpos] loop of [_siftup].  [budget] caps the
    iterations; [_siftup] grants [endpos], one per position the hole can
    sink. *)
Fixpoint siftup_loop (budget : nat) (heap : list Device) (endpos pos childpos : nat)
  : result (list Device * nat) :=
  if decide (childpos < endpos) then
    match budget with
    | 0 => Raise Diverged
    | S budget' =>
        let rightpos := childpos + 1 in
        childpos' ←
          (if decide (rightpos < endpos) then
             l ← list_get heap childpos;
             r ← list_get heap rightpos;
             Ok (if negb (Device_lt l r) then rightpos else childpos)
           else Ok childpos);
        c ← list_get heap childpos';
        heap' ← list_set heap pos c;
        siftup_loop budget' heap' endpos childpos' (2 * childpos' + 1)
    end
  else Ok (heap, pos).

Definition siftup (heap : list Device) (pos : nat) : result (list Device) :=
  let endpos := length heap in
  let startpos := pos in
  newitem ← list_get heap pos;
  '(heap', pos') ← siftup_loop endpos heap endpos pos (2 * pos + 1);
  heap'' ← list_set heap' pos' newitem;
  siftdown heap'' startpos pos'.

Definition heappush (heap : list Device) (item : Device) : result (list Device) :=
  let heap := heap ++ [item] in
  siftdown heap 0 (length heap - 1).

(** Returns the heap after the call and the item the call returns. *)
Definition heappushpop (heap : list Device) (item : Device)
  : result (list Device * Device) :=
  c ← (if bool_decide (heap ≠ []) then
         h0 ← list_get heap 0; Ok (Device_lt h0 item)
       else Ok false);
  if (c : bool) then
    h0 ← list_get heap 0;
    heap' ← list_set heap 0 item;
    heap'' ← siftup heap' 0;
    Ok (heap'', h0)
  else Ok (heap, item).

(** ** Node.add_device *)

(** Returns the node after the call and the value the call returns
    ([None], or the device that [heappushpop] handed back). *)
Definition add_device (self : Node) (device : Device) : result (Node * option Device) :=
  if decide (Z.of_nat (length (devices self)) < resources self)%Z then
    h ← heappush (devices self) device;
    Ok (set_devices self h, None)
  else
    '(h, popped_device) ← heappushpop (devices self) device;
    Ok (set_devices self h, Some popped_device).

(** A sequence of [add_device] calls on one node, the returned values dropped. *)
Fixpoint add_devices (self : Node) (ds : list Device) : result Node :=
  match ds with
  | [] => Ok self
  | d :: ds' => '(self', _) ← add_device self d; add_devices self' ds'
  end.


(** ** The assignment phase *)

(** The object store: the node objects by id, and the [Probe] of each
    device whose probe has been written to.  [Device.__init__] gives every
    device the probe [Probe(self.connected_node)]; a device without an
    entry still has that one. *)
Record World : Type := mkWorld {
  nodes : gmap NodeId Node;
  probes : gmap Device Probe
}.

Definition probe_of (w : World) (d : Device) : Probe :=
  default (Probe_init (connected_node d)) (probes w !! d).

Definition node_of (w : World) (n : NodeId) : result Node :=
  match nodes w !! n with
  | Some N => Ok N
  | None => Raise Dangling
  end.

(** Where control is.  [executor.submit(d.assign_device())] evaluates its
    argument first, so main runs each [assign_device] to completion, one
    after the other, on its own thread.  [d.assign_device()] inside
    [find_node] is followed by [break] and the end of the function only,
    so the caller's frame has nothing left to do when it returns. *)
Inductive Pc : Type :=
| Main
    (* in main's loop over the devices, between two calls *)
| Call (d : Device)
    (* [d.assign_device()] entered, [find_node] about to start *)
| Loop (d : Device)
    (* at the test of the [while] of [find_node(d)] *)
| Done (d : Device) (placed : option NodeId) (evicted : option Device).
    (* [find_node(d)] has left its loop: [d] sits in node [placed], or the
       loop ran out with [d] unplaced; [evicted] is what [add_device]
       displaced, whose [assign_device] is called next *)

Record Config : Type := mkConfig {
  world : World;
  pc : Pc;
  pending : list Device;          (* devices main has yet to reach *)
  clock : nat;                    (* position in the random stream *)
  trail : list (nat * NodeId);    (* log: distance and node of every [add_device]
                                     call of the latest search, latest first *)
  entry : list (nat * gset NodeId)
                                  (* log: the frontier the latest search started with *)
}.

(** Lines 151-152: [self.distance = 0; self.visited = set()]. *)
Definition find_node_enter (c : Config) (device : Device) : Config :=
  let w := world c in
  let self := probe_of w device in
  let self' := {| distance := 0; frontier := frontier self; visited := ∅ |} in
  {| world := {| nodes := nodes w; probes := <[device := self']> (probes w) |};
     pc := Loop device; pending := pending c; clock := clock c;
     trail := []; entry := frontier self |}.

(** The configuration after [n] has been drawn and visited, its neighbours
    registered, and [n.add_device(device)] has changed the node from [N] to
    [N'] and returned [d] (lines 156-165). *)
Definition after_try (c : Config) (device : Device) (n : NodeId) (N N' : Node)
    (d : option Device) : Config :=
  let w := world c in
  let self := probe_of w device in
  let self' := {| distance := distance self;
                  frontier := dict_update (frontier self) (distance self + 1)
                                (get_neighbors N);
                  visited := visited self ∪ {[n]} |} in
  {| world := {| nodes := <[n := N']> (nodes w);
                 probes := <[device := self']> (probes w) |};
     pc := match d with
           | None => Done device (Some n) None
           | Some d' => if negb (Device_eq d' device)
                        then Done device (Some n) (Some d')
                        else Loop device
           end;
     pending := pending c; clock := S (clock c);
     trail := (distance self, n) :: trail c; entry := entry c |}.

(** Line 167: [self.distance += 1]. *)
Definition after_advance (c : Config) (device : Device) : Config :=
  let w := world c in
  let self := probe_of w device in
  let self' := {| distance := distance self + 1; frontier := frontier self;
                  visited := visited self |} in
  {| world := {| nodes := nodes w; probes := <[device := self']> (probes w) |};
     pc := Loop device; pending := pending c; clock := clock c;
     trail := trail c; entry := entry c |}.

Definition set_pc (c : Config) (p : Pc) : Config :=
  {| world := world c; pc := p; pending := pending c; clock := clock c;
     trail := trail c; entry := entry c |}.

(** One test of the [while] condition and, when it holds, one run of the
    loop body (lines 153-167). *)
Definition find_node_iter (c : Config) (device : Device) : result Config :=
  let w := world c in
  let self := probe_of w device in
  k ← last_key (frontier self);
  if decide (distance self ≤ k) then
    s ← dict_get (frontier self) (distance self);
    let f := s ∖ visited self in
    if decide (f ≠ ∅) then
      n ← rand_from_set rnd (clock c) f;
      N ← node_of w n;
      '(N', d) ← add_device N device;
      Ok (after_try c device n N N' d)
    else Ok (after_advance c device)
  else Ok (set_pc c (Done device None None)).

(** [for d in devices: executor.submit(d.assign_device())] *)
Definition main_next (c : Config) : Config :=
  match pending c with
  | [] => c
  | d :: rest =>
      {| world := world c; pc := Call d; pending := rest; clock := clock c;
         trail := trail c; entry := entry c |}
  end.

(** After the loop: [d.assign_device()] for the displaced device, or the
    return to main. *)
Definition find_node_leave (c : Config) (evicted : option Device) : Config :=
  match evicted with
  | Some d' => set_pc c (Call d')
  | None => set_pc c Main
  end.

Definition step (c : Config) : result Config :=
  match pc c with
  | Main => Ok (main_next c)
  | Call d => Ok (find_node_enter c d)
  | Loop d => find_node_iter c d
  | Done _ _ evicted => Ok (find_node_leave c evicted)
  end.

Fixpoint run (k : nat) (c : Config) : result Config :=
  match k with
  | 0 => Ok c
  | S k' => c' ← step c; run k' c'
  end.

(** The assignment phase starts with the graph built, no device assigned
    and no probe used. *)
Definition initial (g : gmap NodeId Node) (ds : list Device) : Config :=
  {| world := {| nodes := g; probes := ∅ |}; pc := Main; pending := ds; clock := 0;
     trail := []; entry := [] |}.

(** ** Vocabulary of the properties *)

(** The nodes that can be reached from [o] along the edges of the graph. *)
Inductive reachable (g : gmap NodeId Node) (o : NodeId) : NodeId → Prop :=
| reachable_origin : reachable g o o
| reachable_edge n N m :
    reachable g o n → g !! n = Some N → m ∈ neighbors N → reachable g o m.

(** Edges lead to nodes of the graph, and every device is connected to one. *)
Definition graph_closed (g : gmap NodeId Node) : Prop :=
  (∀ n N, g !! n = Some N → neighbors N ⊆ dom g) ∧ (∀ d, connected_node d ∈ dom g).

(** The assignment phase changes the [devices] of a node and nothing else. *)
Definition same_graph (g g' : gmap NodeId Node) : Prop :=
  ∀ n, neighbors <$> g' !! n = neighbors <$> g !! n.

(** The entry of a frontier at a distance, empty when it has none. *)
Definition level (fr : list (nat * gset NodeId)) (k : nat) : gset NodeId :=
  match dict_get fr k with
  | Ok s => s
  | Raise _ => ∅
  end.

Definition nbrs (g : gmap NodeId Node) (n : NodeId) : gset NodeId :=
  match g !! n with
  | Some N => neighbors N
  | None => ∅
  end.

(** The nodes a trail records at distance [k]. *)
Definition tried_at (tr : list (nat * NodeId)) (k : nat) : list NodeId :=
  (filter (λ e, e.1 = k) tr).*2.

(** A frontier as [find_node] builds it from [Probe(o)]: keys 0, 1, 2, ...
    in this order, [{o}] at distance 0, and nothing that [o] cannot reach. *)
Definition probe_ok (g : gmap NodeId Node) (o : NodeId) (p : Probe) : Prop :=
  (frontier p).*1 = seq 0 (length (frontier p)) ∧
  dict_get (frontier p) 0 = Ok {[o]} ∧
  ∀ k n, n ∈ level (frontier p) k → reachable g o n.

(** The device whose search the trail belongs to. *)
Definition searching (c : Config) : option Device :=
  match pc c with
  | Loop d | Done d _ _ => Some d
  | Main | Call _ => None
  end.

(** The probe of the searching device against the log of its search. *)
Definition search_ok (g : gmap NodeId Node) (c : Config) (d : Device) : Prop :=
  let p := probe_of (world c) d in
  visited p = list_to_set (trail c).*2 ∧
  NoDup (trail c).*2 ∧
  (∀ k n, (k, n) ∈ trail c → n ∈ level (frontier p) k) ∧
  (∀ k n, (k, n) ∈ trail c → ∃ s, dict_get (frontier p) (S k) = Ok s) ∧
  (∀ k, level (frontier p) (S k) =
        level (entry c) (S k) ∪ ⋃ (nbrs g <$> tried_at (trail c) k)).

Definition search_inv (g : gmap NodeId Node) (c : Config) : Prop :=
  same_graph g (nodes (world c)) ∧
  (∀ d, probe_ok g (connected_node d) (probe_of (world c) d)) ∧
  (∀ d, searching c = Some d → search_ok g c d).

(** What bounds the iterations a running search has left, [R] being a set
    that holds the nodes it can reach: two for every node not yet visited,
    one for every distance not yet passed. *)
Definition iterations_left (R : gset NodeId) (c : Config) (d : Device) : nat :=
  let p := probe_of (world c) d in
  2 * size (R ∖ visited p) + (length (frontier p) - distance p).

(** The devices in some node's collection, node after node. *)
Definition held (w : World) : list Device :=
  mjoin (devices <$> (map_to_list (nodes w)).*2).

(** No device is assigned yet. *)
Definition unassigned (g : gmap NodeId Node) : Prop :=
  ∀ n N, g !! n = Some N → devices N = [].

(** The devices that are yet to be placed: the one whose [assign_device]
    runs or is about to, and those main has not reached. *)
Definition unplaced (c : Config) : list Device :=
  match pc c with
  | Main | Done _ _ None => []
  | Call d | Loop d | Done _ _ (Some d) => [d]
  end ++ pending c.

(** ** Heap order *)

(** Not stronger than: [not (other < self)]. *)
Definition Device_le (a b : Device) : Prop := (value (priority a) ≤ value (priority b))%Z.

(** Position of the parent in the implicit binary tree, as [_siftdown]
    computes it. *)
Definition parent (k : nat) : nat := Nat.shiftr (k - 1) 1.

(** Every position carries a device that is not weaker than its parent's. *)
Definition heap_inv (h : list Device) : Prop :=
  ∀ k x y, 0 < k → h !! k = Some x → h !! parent k = Some y → Device_le y x.

(** The heap order with a hole at [pos]: every edge that does not touch
    [pos] is in order, and the children of [pos] are not weaker than the
    parent of [pos]. *)
Definition hole_inv (h : list Device) (pos : nat) : Prop :=
  (∀ k x y, 0 < k → k ≠ pos → parent k ≠ pos →
     h !! k = Some x → h !! parent k = Some y → Device_le y x) ∧
  (∀ k x g, 0 < k → parent k = pos → 0 < pos →
     h !! k = Some x → h !! parent pos = Some g → Device_le g x).

(** [x] may be dropped into the hole without breaking the order below it. *)
Definition fits_above (h : list Device) (pos : nat) (x : Device) : Prop :=
  ∀ k y, 0 < k → parent k = pos → h !! k = Some y → Device_le x y.

(** A weakest device of a collection. *)
Definition weakest (h : list Device) (w : Device) : Prop :=
  w ∈ h ∧ ∀ y, y ∈ h → Device_le w y.

End Program.

Arguments parent : simpl never.
Arguments tried_at : simpl never.
Arguments level : simpl never.
Arguments nbrs : simpl never.

(** * The graph main builds *)

(** The node object behind a reference. *)
Definition deref (g : gmap NodeId Node) (n : NodeId) : result Node :=
  match g !! n with
  | Some N => Ok N
  | None => Raise Dangling
  end.

(** [a.add_neighbor(b)] followed by [b.add_neighbor(a)], on the node
    objects of the store. *)
Definition link (g : gmap NodeId Node) (a b : NodeId) : result (gmap NodeId Node) :=
  A ← deref g a;
  let g := <[a := add_neighbor A b]> g in
  B ← deref g b;
  Ok (<[b := add_neighbor B a]> g).

(** [{Node(resources[i]) for i in range(N)}]: the store of the node
    objects it creates, [i] the index it has come to, [last_id] the class
    counter and [count] the indices left. *)
Fixpoint new_nodes (resources : list Z) (last_id i count : nat) (g : gmap NodeId Node)
  : result (gmap NodeId Node) :=
  match count with
  | 0 => Ok g
  | S count' =>
      r ← list_get resources i;
      new_nodes resources (S last_id) (S i) count' (<[last_id := Node_init last_id r]> g)
  end.

Section Graph.

Variable rnd : nat → nat.

(** [for n in nodes] of main, "creating connected graph"; [order] is the
    order in which the set yields its members. *)
Fixpoint connect_loop (nodes : gset NodeId) (order : list NodeId) (t : nat)
    (node_set : gset NodeId) (g : gmap NodeId Node)
  : result (nat * gset NodeId * gmap NodeId Node) :=
  match order with
  | [] => Ok (t, node_set, g)
  | n :: order' =>
      '(rand_n, node_set) ←
        (if decide (node_set = ∅) then
           rand_n ← rand_from_set rnd t (nodes ∖ {[n]});
           Ok (rand_n, node_set ∪ {[rand_n]})
         else
           rand_n ← rand_from_set rnd t (node_set ∖ {[n]});
           Ok (rand_n, node_set));
      let node_set := node_set ∪ {[n]} in
      g ← link g n rand_n;
      connect_loop nodes order' (S t) node_set g
  end.

(** [for _ in range(E - N + 1)] of main, "adding extra edges", with
    [count] rounds left. *)
Fixpoint extra_loop (nodes node_set : gset NodeId) (count : nat) (t : nat)
    (g : gmap NodeId Node) : result (nat * gmap NodeId Node) :=
  match count with
  | 0 => Ok (t, g)
  | S count' =>
      n ← rand_from_set rnd t nodes;
      rand_n ← rand_from_set rnd (S t) (node_set ∖ {[n]});
      g ← link g n rand_n;
      extra_loop nodes node_set count' (S (S t)) g
  end.

(** The two loops, one after the other, from [node_set = set()]. *)
Definition build_graph (nodes : gset NodeId) (order : list NodeId) (E N : Z) (t : nat)
    (g : gmap NodeId Node) : result (nat * gmap NodeId Node) :=
  '(t, node_set, g) ← connect_loop nodes order t ∅ g;
  extra_loop nodes node_set (Z.to_nat (E - N + 1)) t g.

End Graph.

(** * Vocabulary of further properties *)

(** [sum(l)] on integers *)
Definition total (l : list Z) : Z := foldr Z.add 0%Z l.

(** [a < d1 < d2 < ... < dm < b] *)
Fixpoint chain (a : Z) (ds : list Z) (b : Z) : Prop :=
  match ds with
  | [] => (a < b)%Z
  | d :: ds' => (a < d)%Z ∧ chain d ds' b
  end.

(** The nodes that a walk of exactly [k] edges from [o] ends in. *)
Inductive walk (g : gmap NodeId Node) (o : NodeId) : nat → NodeId → Prop :=
| walk_origin : walk g o 0 o
| walk_edge k n N m :
    walk g o k n → g !! n = Some N → m ∈ neighbors N → walk g o (S k) m.

(** The sum of the capacities of the nodes. *)
Definition capacity (g : gmap NodeId Node) : Z :=
  total (resources <$> (map_to_list g).*2).

(** The value [add_device] returned, as a list. *)
Definition handed_back (r : option Device) : list Device :=
  match r with
  | Some e => [e]
  | None => []
  end.

(** An edge is held by both of its ends. *)
Definition undirected (g : gmap NodeId Node) : Prop :=
  ∀ a b, b ∈ nbrs g a → a ∈ nbrs g b.

(** No node is its own neighbour. *)
Definition loop_free (g : gmap NodeId Node) : Prop :=
  ∀ a, a ∉ nbrs g a.

(** Edges lead to nodes of the graph. *)
Definition edges_inside (g : gmap NodeId Node) : Prop :=
  ∀ a, nbrs g a ⊆ dom g.

(** Every node can be reached from every node. *)
Definition connected (g : gmap NodeId Node) : Prop :=
  ∀ a b, a ∈ dom g → b ∈ dom g → reachable g a b.

(** The same node objects, with the id, the capacity and the devices they
    had. *)
Definition same_nodes (g g' : gmap NodeId Node) : Prop :=
  ∀ n, (λ N, (id N, resources N, devices N)) <$> g' !! n
       = (λ N, (id N, resources N, devices N)) <$> g !! n.

(** What the loops of main keep: the graph is simple and undirected on
    the node objects of [nodes], and the members of [node_set] reach each
    other. *)
Definition wired (nodes node_set : gset NodeId) (g : gmap NodeId Node) : Prop :=
  dom g = nodes ∧ node_set ⊆ nodes ∧ edges_inside g ∧ undirected g ∧ loop_free g ∧
  ∀ a b, a ∈ node_set → b ∈ node_set → reachable g a b.

(** A set with no member or with two. *)
Definition paired (s : gset NodeId) : Prop :=
  s = ∅ ∨ ∃ a b, a ≠ b ∧ a ∈ s ∧ b ∈ s.

Section MoreVocabulary.

Variable priority : Device → Priority.
Variable connected_node : Device → NodeId.

(** A node that hands [d] back: it is full and holds no device weaker
    than [d]. *)
Definition rejects (N : Node) (d : Device) : Prop :=
  (resources N ≤ Z.of_nat (length (devices N)))%Z ∧
  ∀ y, y ∈ devices N → Device_le priority d y.

(** The device whose search is in its loop or has run out. *)
Definition unsuccessful (c : Config) : option Device :=
  match pc c with
  | Loop d | Done d None None => Some d
  | _ => None
  end.

(** What a search that has not placed its device has established: the
    collections are in heap order; the distances behind the current one
    are used up; every node tried has handed the device back; and once
    the loop has run out, the distance is past the last key. *)
Definition exhaust_inv (c : Config) : Prop :=
  (∀ n N, nodes (world c) !! n = Some N → heap_inv priority (devices N)) ∧
  ∀ d, unsuccessful c = Some d →
    let p := probe_of connected_node (world c) d in
    (∀ j, j < distance p → level (frontier p) j ⊆ visited p) ∧
    (∀ k n, (k, n) ∈ trail c → ∃ N, nodes (world c) !! n = Some N ∧ rejects N d) ∧
    (pc c = Done d None None → length (frontier p) ≤ distance p).

(** The frontier of every probe is made of rings: the entry at distance
    [k] holds only nodes that a walk of [k] edges reaches. *)
Definition rings_inv (g : gmap NodeId Node) (c : Config) : Prop :=
  ∀ d k n, n ∈ level (frontier (probe_of connected_node (world c) d)) k →
           walk g (connected_node d) k n.

(** The device whose search has just run out. *)
Definition given_up (c : Config) : list Device :=
  match pc c with
  | Done d None None => [d]
  | _ => []
  end.

(** Every node respects its capacity and keeps the capacity it had. *)
Definition capacity_inv (g : gmap NodeId Node) (c : Config) : Prop :=
  ∀ n N, nodes (world c) !! n = Some N →
    (Z.of_nat (length (devices N)) ≤ resources N)%Z ∧
    resources <$> g !! n = Some (resources N).

End MoreVocabulary.

(** * A small instance *)

Definition prio_ex (d : Device) : Priority :=
  match d with
  | 0 => MIN | 1 => MED | 2 => MAX | 3 => MED | 4 => MIN_MED | 5 => MIN | _ => MED_MAX
  end.

Definition rnd_ex (t : nat) : nat := 7 * t + 3.

Definition node_ex : Node :=
  {| id := 0; resources := 2; devices := [0; 1]; neighbors := ∅ |}.

(** Two nodes of capacity 1, joined by an edge; every device starts at
    node 0. *)
Definition graph_ex : gmap NodeId Node :=
  {[ 0 := {| id := 0; resources := 1; devices := []; neighbors := {[1]} |};
     1 := {| id := 1; resources := 1; devices := []; neighbors := {[0]} |} ]}.

Definition origin_ex (d : Device) : NodeId := 0.

(** Two nodes as main makes them, of capacities 1 and 2, not yet wired. *)
Definition fresh_ex : gmap NodeId Node :=
  {[ 0 := Node_init 0 1; 1 := Node_init 1 2 ]}.

Definition run_ex (k : nat) (ds : list Device) : result Config :=
  run prio_ex origin_ex rnd_ex k (initial graph_ex ds).

(** The configuration after [k] steps of the phase with device 0 (MIN) and
    then device 1 (MED): as many devices as the capacities add up to, as
    [get_resources] hands them out. *)
Definition config_ex (k : nat) : Config :=
  match run_ex k [0; 1] with
  | Ok c => c
  | Raise _ => initial graph_ex []
  end.

Example heappush_ex :
  (h ← heappush prio_ex [] 2; h ← heappush prio_ex h 1; h ← heappush prio_ex h 0;
   h ← heappush prio_ex h 3; heappushpop prio_ex h 4) = Ok ([4; 3; 1; 2], 0).
Proof. vm_compute. reflexivity. Qed.

Example get_resources_ex : get_resources rnd_ex 0 3 7 = Ok [1; 3; 3]%Z.
Proof. vm_compute. reflexivity. Qed.

(** A node of capacity 1 that holds a MED device: a MAX device displaces it. *)
Example add_device_evicts_ex :
  add_device prio_ex {| id := 0; resources := 1; devices := [1]; neighbors := ∅ |} 2
  = Ok ({| id := 0; resources := 1; devices := [2]; neighbors := ∅ |}, Some 1).
Proof. vm_compute. reflexivity. Qed.

(** A node of capacity 2 that holds two MAX devices: a MIN device is
    handed back. *)
Example add_device_rejects_ex :
  add_device (λ d, match d with 0 => MIN | _ => MAX end)
    {| id := 0; resources := 2; devices := [1; 2]; neighbors := ∅ |} 0
  = Ok ({| id := 0; resources := 2; devices := [1; 2]; neighbors := ∅ |}, Some 0).
Proof. vm_compute. reflexivity. Qed.

(** * Facts *)

Section Facts.

Context (priority : Device → Priority).

Local Abbreviation lt_dev := (Device_lt priority).
Local Abbreviation dle := (Device_le priority).
Local Abbreviation heap_inv := (heap_inv priority).
Local Abbreviation hole_inv := (hole_inv priority).
Local Abbreviation fits_above := (fits_above priority).
Local Abbreviation weakest := (weakest priority).
#[local] Arguments Nat.mul : simpl never.
#[local] Arguments siftup : simpl never.
#[local] Arguments siftdown : simpl never.
#[local] Arguments heappush : simpl never.
#[local] Arguments heappushpop : simpl never.

(** ** The result monad *)

Lemma list_get_Ok {A : Type} (l : list A) (i : nat) (x : A) :
  list_get l i = Ok x ↔ l !! i = Some x.
Proof. unfold list_get. destruct (l !! i); split; congruence. Qed.

Lemma list_get_lt {A : Type} (l : list A) (i : nat) :
  i < length l → ∃ x, list_get l i = Ok x ∧ l !! i = Some x.
Proof.
  intros Hi. destruct (lookup_lt_is_Some_2 l i Hi) as [x Hx].
  exists x. by rewrite list_get_Ok.
Qed.

Lemma list_set_lt {A : Type} (l : list A) (i : nat) (x : A) :
  i < length l → list_set l i x = Ok (<[i := x]> l).
Proof. intros Hi. unfold list_set. by rewrite decide_True. Qed.

(** ** Order on devices *)

Lemma Device_lt_true a b : lt_dev a b = true ↔ (value (priority a) < value (priority b))%Z.
Proof. unfold Device_lt. apply Z.ltb_lt. Qed.

Lemma Device_lt_false a b : lt_dev a b = false ↔ dle b a.
Proof. unfold Device_lt, Device_le. apply Z.ltb_ge. Qed.

Lemma dle_refl a : dle a a.
Proof. unfold Device_le. lia. Qed.

Lemma dle_trans a b c : dle a b → dle b c → dle a c.
Proof. unfold Device_le. lia. Qed.

(** ** Positions in the implicit binary tree *)


Lemma parent_div k : parent k = (k - 1) / 2.
Proof. unfold parent. by rewrite Nat.shiftr_div_pow2. Qed.

Lemma parent_lt k : 0 < k → parent k < k.
Proof. intros Hk. rewrite parent_div. apply Nat.Div0.div_lt_upper_bound; lia. Qed.

Lemma parent_children k p : 0 < k → parent k = p ↔ k = 2 * p + 1 ∨ k = 2 * p + 2.
Proof.
  intros Hk. rewrite parent_div. split.
  - intros <-. pose proof (Nat.div_mod_eq (k - 1) 2) as E.
    pose proof (Nat.mod_upper_bound (k - 1) 2). lia.
  - intros [-> | ->].
    + replace (2 * p + 1 - 1) with (p * 2) by lia. by rewrite Nat.div_mul.
    + replace (2 * p + 2 - 1) with (1 + p * 2) by lia.
      rewrite Nat.div_add by lia. reflexivity.
Qed.

(** ** Heap order *)

Lemma heap_inv_root h x y : heap_inv h → h !! 0 = Some x → y ∈ h → dle x y.
Proof.
  intros Hh H0 Hy. apply list_elem_of_lookup in Hy as [k Hk].
  revert y Hk. induction (lt_wf k) as [k _ IH]. intros y Hk.
  destruct (decide (k = 0)) as [->|Hne].
  - rewrite H0 in Hk. injection Hk as ->. apply dle_refl.
  - assert (parent k < k) as Hlt by (apply parent_lt; lia).
    destruct (lookup_lt_is_Some_2 h (parent k)) as [z Hz].
    { apply lookup_lt_Some in Hk. lia. }
    eapply dle_trans; [apply (IH _ Hlt _ Hz)|].
    apply (Hh k y z); [lia|done..].
Qed.

(** ** Assignments into a list, up to the order of the elements *)

Lemma insert_perm (l : list Device) i x y :
  l !! i = Some y → y :: <[i := x]> l ≡ₚ x :: l.
Proof.
  revert i. induction l as [|a l IH]; intros [|i] Hi; simplify_eq/=.
  - apply Permutation_swap.
  - etrans; [apply Permutation_swap|].
    etrans; [apply Permutation_skip, (IH _ Hi)|]. apply Permutation_swap.
Qed.

Lemma insert_swap_perm (h : list Device) i j v x :
  i ≠ j → i < length h → h !! j = Some v →
  <[j := x]> (<[i := v]> h) ≡ₚ <[i := x]> h.
Proof.
  intros Hij Hi Hj. destruct (lookup_lt_is_Some_2 h i Hi) as [q Hq].
  apply (Permutation_cons_inv (a := v)), (Permutation_cons_inv (a := q)).
  etrans; [apply Permutation_skip, (insert_perm _ j x v); by rewrite list_lookup_insert_ne|].
  etrans; [apply Permutation_swap|].
  etrans; [apply Permutation_skip, (insert_perm h i v q Hq)|].
  etrans; [apply Permutation_swap|].
  etrans; [|apply Permutation_swap].
  symmetry. apply Permutation_skip, (insert_perm h i x q Hq).
Qed.

(** ** _siftdown *)

Lemma siftdown_loop_spec budget (heap : list Device) pos x :
  pos ≤ budget → pos < length heap →
  ∃ h' pos',
    siftdown_loop priority budget heap 0 pos x = Ok (h', pos') ∧
    length h' = length heap ∧ pos' < length heap ∧
    <[pos' := x]> h' ≡ₚ <[pos := x]> heap ∧
    (hole_inv heap pos → fits_above heap pos x → heap_inv (<[pos' := x]> h')).
Proof.
  revert heap pos. induction budget as [|budget IH]; intros heap pos Hb Hpos.
  { assert (pos = 0) as -> by lia. exists heap, 0. cbn.
    repeat split; [done..|]. intros [Ha _] Hfit k a b Hk Hka Hkb.
    rewrite list_lookup_insert_ne in Hka by lia.
    destruct (decide (parent k = 0)) as [E|E].
    - rewrite E, list_lookup_insert_eq in Hkb by lia. simplify_eq. by eapply Hfit.
    - rewrite list_lookup_insert_ne in Hkb by lia. eapply Ha; eauto; lia. }
  cbn [siftdown_loop]. destruct (decide (0 < pos)) as [Hp|Hp]; cycle 1.
  { assert (pos = 0) as -> by lia. exists heap, 0.
    repeat split; [done..|]. intros [Ha _] Hfit k a b Hk Hka Hkb.
    rewrite list_lookup_insert_ne in Hka by lia.
    destruct (decide (parent k = 0)) as [E|E].
    - rewrite E, list_lookup_insert_eq in Hkb by lia. simplify_eq. by eapply Hfit.
    - rewrite list_lookup_insert_ne in Hkb by lia. eapply Ha; eauto; lia. }
  fold (parent pos). pose proof (parent_lt pos Hp) as Hpp.
  destruct (list_get_lt heap (parent pos)) as (p & -> & Hlk); [lia|]. cbn.
  destruct (lt_dev x p) eqn:Hlt.
  - rewrite list_set_lt by done. cbn.
    destruct (IH (<[pos := p]> heap) (parent pos)) as (h' & pos' & -> & Hlen & Hlt' & Hperm & Hinv).
    { lia. } { rewrite length_insert. lia. }
    rewrite length_insert in Hlen, Hlt'. exists h', pos'. repeat split; [done..| |].
    { rewrite Hperm. apply insert_swap_perm; [lia|done..]. }
    intros [Ha Hc] Hfit. apply Hinv.
    + split.
      * intros k a b Hk Hne Hpne Hka Hkb.
        destruct (decide (k = pos)) as [Ekp|Hkp]; [subst k|]; [done|].
        rewrite list_lookup_insert_ne in Hka by done.
        destruct (decide (parent k = pos)) as [E|E].
        -- rewrite E, list_lookup_insert_eq in Hkb by done. simplify_eq.
           eapply (Hc k); eauto.
        -- rewrite list_lookup_insert_ne in Hkb by done. eapply Ha; eauto.
      * intros k a g Hk Hpk Hpos0 Hka Hkg.
        pose proof (parent_lt (parent pos) Hpos0).
        rewrite list_lookup_insert_ne in Hkg by lia.
        assert (dle g p) as Hgp.
        { eapply (Ha (parent pos)); eauto; lia. }
        destruct (decide (k = pos)) as [Ekp|Hkp]; [subst k|].
        -- rewrite list_lookup_insert_eq in Hka by done. by simplify_eq.
        -- rewrite list_lookup_insert_ne in Hka by done.
           eapply dle_trans; [exact Hgp|]. eapply (Ha k); eauto; try lia.
           by rewrite Hpk.
    + intros k a Hk Hpk Hka. apply Device_lt_true in Hlt.
      destruct (decide (k = pos)) as [Ekp|Hkp]; [subst k|].
      * rewrite list_lookup_insert_eq in Hka by done. simplify_eq. unfold Device_le. lia.
      * rewrite list_lookup_insert_ne in Hka by done.
        assert (dle p a) as Hpa.
        { eapply (Ha k); eauto; try lia. by rewrite Hpk. }
        unfold Device_le in *. lia.
  - exists heap, pos. repeat split; [done..|].
    intros [Ha _] Hfit k a b Hk Hka Hkb. apply Device_lt_false in Hlt.
    destruct (decide (k = pos)) as [Ekp|Hkp]; [subst k|].
    + rewrite list_lookup_insert_eq in Hka by done.
      rewrite list_lookup_insert_ne in Hkb by lia. by simplify_eq.
    + rewrite list_lookup_insert_ne in Hka by done.
      destruct (decide (parent k = pos)) as [E|E].
      * rewrite E, list_lookup_insert_eq in Hkb by done. simplify_eq. by eapply Hfit.
      * rewrite list_lookup_insert_ne in Hkb by done. eapply Ha; eauto.
Qed.

Lemma siftdown_spec (heap : list Device) pos x :
  heap !! pos = Some x →
  ∃ h', siftdown priority heap 0 pos = Ok h' ∧ h' ≡ₚ heap ∧
        (hole_inv heap pos → fits_above heap pos x → heap_inv h').
Proof.
  intros Hx. pose proof (lookup_lt_Some _ _ _ Hx) as Hpos.
  unfold siftdown. rewrite (proj2 (list_get_Ok _ _ _) Hx). cbn.
  destruct (siftdown_loop_spec pos heap pos x) as (h' & pos' & -> & Hlen & Hlt & Hperm & Hinv);
    [done..|]. cbn.
  rewrite list_set_lt by lia. eexists. split; [done|]. split; [|done].
  by rewrite Hperm, list_insert_id.
Qed.

(** ** _siftup *)

(** The child that the loop of [_siftup] moves up is the weaker one. *)
Lemma smaller_child (heap : list Device) pos :
  2 * pos + 1 < length heap →
  ∃ c v,
    (if decide (2 * pos + 1 + 1 < length heap) then
       l ← list_get heap (2 * pos + 1);
       r ← list_get heap (2 * pos + 1 + 1);
       Ok (if negb (lt_dev l r) then 2 * pos + 1 + 1 else 2 * pos + 1)
     else Ok (2 * pos + 1)) = Ok c ∧
    heap !! c = Some v ∧ pos < c ∧ parent c = pos ∧
    (∀ k y, 0 < k → parent k = pos → heap !! k = Some y → dle v y).
Proof.
  intros Hc. destruct (list_get_lt heap (2 * pos + 1) Hc) as (l & Hgl & Hl).
  case_decide as Hr.
  - destruct (list_get_lt heap (2 * pos + 1 + 1) Hr) as (r & Hgr & Hrr).
    rewrite Hgl, Hgr. cbn. destruct (lt_dev l r) eqn:Hlt; cbn.
    + exists (2 * pos + 1), l. repeat split; [done|lia|apply parent_children; lia|].
      intros k y Hk Hpk Hy. apply (proj1 (parent_children _ _ Hk)) in Hpk as [->| ->].
      * simplify_eq. apply dle_refl.
      * replace (2 * pos + 2) with (2 * pos + 1 + 1) in Hy by lia. simplify_eq.
        apply Device_lt_true in Hlt. unfold Device_le. lia.
    + exists (2 * pos + 1 + 1), r. repeat split; [done|lia|apply parent_children; lia|].
      intros k y Hk Hpk Hy. apply (proj1 (parent_children _ _ Hk)) in Hpk as [->| ->].
      * simplify_eq. by apply Device_lt_false.
      * replace (2 * pos + 2) with (2 * pos + 1 + 1) in Hy by lia. simplify_eq.
        apply dle_refl.
  - exists (2 * pos + 1), l. repeat split; [done|lia|apply parent_children; lia|].
    intros k y Hk Hpk Hy. apply (proj1 (parent_children _ _ Hk)) in Hpk as [->| ->].
    + simplify_eq. apply dle_refl.
    + apply lookup_lt_Some in Hy. lia.
Qed.

Lemma siftup_loop_spec budget (heap : list Device) endpos pos :
  endpos = length heap → endpos - pos ≤ budget → pos < endpos →
  ∃ h' pos',
    siftup_loop priority budget heap endpos pos (2 * pos + 1) = Ok (h', pos') ∧
    length h' = endpos ∧ pos' < endpos ∧ endpos ≤ 2 * pos' + 1 ∧
    (∀ x, <[pos' := x]> h' ≡ₚ <[pos := x]> heap) ∧
    (hole_inv heap pos → hole_inv h' pos').
Proof.
  revert heap pos. induction budget as [|budget IH]; intros heap pos -> Hb Hpos; [lia|].
  cbn [siftup_loop]. case_decide as Hc; cycle 1.
  { exists heap, pos. split_and!; [done|done|done|lia|done|done]. }
  destruct (smaller_child heap pos Hc) as (c & v & -> & Hv & Hpc & Hpar & Hmin). cbn.
  rewrite (proj2 (list_get_Ok _ _ _) Hv). cbn. rewrite list_set_lt by done. cbn.
  pose proof (lookup_lt_Some _ _ _ Hv) as Hclt.
  destruct (IH (<[pos := v]> heap) c) as (h' & pos' & -> & Hlen & Hlt & Hleaf & Hperm & Hinv).
  { by rewrite length_insert. } { lia. } { done. }
  exists h', pos'. split_and!; [done..| |].
  { intros x. rewrite Hperm. apply insert_swap_perm; [lia|done..]. }
  intros [Ha Hg]. apply Hinv. split.
  - intros k a b Hk Hkc Hpkc Hka Hkb.
    destruct (decide (k = pos)) as [Ekp|Hkp]; [subst k|].
    + rewrite list_lookup_insert_eq in Hka by done. injection Hka as <-.
      pose proof (parent_lt pos Hk).
      rewrite list_lookup_insert_ne in Hkb by lia.
      eapply (Hg c); eauto; lia.
    + rewrite list_lookup_insert_ne in Hka by done.
      destruct (decide (parent k = pos)) as [E|E].
      * rewrite E, list_lookup_insert_eq in Hkb by done. injection Hkb as <-.
        by eapply Hmin.
      * rewrite list_lookup_insert_ne in Hkb by done. eapply Ha; eauto.
  - intros k a g Hk Hpk Hc0 Hka Hkg.
    rewrite Hpar, list_lookup_insert_eq in Hkg by done. injection Hkg as <-.
    pose proof (parent_lt k Hk).
    rewrite list_lookup_insert_ne in Hka by lia.
    eapply (Ha k); eauto; try lia. by rewrite Hpk.
Qed.

Lemma hole_inv_leaf (h : list Device) pos x :
  length h ≤ 2 * pos + 1 → hole_inv h pos →
  hole_inv (<[pos := x]> h) pos ∧ fits_above (<[pos := x]> h) pos x.
Proof.
  intros Hleaf [Ha Hg]. assert (∀ k y, 0 < k → parent k = pos → h !! k = Some y → False) as Hno.
  { intros k y Hk Hpk Hy. apply lookup_lt_Some in Hy.
    apply (proj1 (parent_children _ _ Hk)) in Hpk; lia. }
  split; [split|].
  - intros k a b Hk Hkp Hpk Hka Hkb.
    rewrite list_lookup_insert_ne in Hka, Hkb by done. eapply Ha; eauto.
  - intros k a g Hk Hpk Hp Hka Hkg. pose proof (parent_lt k Hk).
    rewrite list_lookup_insert_ne in Hka by lia. by destruct (Hno k a).
  - intros k y Hk Hpk Hy. pose proof (parent_lt k Hk).
    rewrite list_lookup_insert_ne in Hy by lia. by destruct (Hno k y).
Qed.

Lemma siftup_spec (heap : list Device) x :
  heap !! 0 = Some x →
  ∃ h', siftup priority heap 0 = Ok h' ∧ h' ≡ₚ heap ∧ (hole_inv heap 0 → heap_inv h').
Proof.
  intros Hx. pose proof (lookup_lt_Some _ _ _ Hx) as Hpos.
  unfold siftup. rewrite (proj2 (list_get_Ok _ _ _) Hx). cbn.
  destruct (siftup_loop_spec (length heap) heap (length heap) 0)
    as (h1 & pos1 & -> & Hlen & Hlt & Hleaf & Hperm & Hinv); [done|lia|done|]. cbn.
  rewrite list_set_lt by lia. cbn.
  destruct (siftdown_spec (<[pos1 := x]> h1) pos1 x) as (h2 & -> & Hperm2 & Hinv2).
  { apply list_lookup_insert_eq. lia. }
  exists h2. split; [done|]. split.
  - by rewrite Hperm2, Hperm, list_insert_id.
  - intros Hh. rewrite <- Hlen in Hleaf.
    destruct (hole_inv_leaf h1 pos1 x Hleaf (Hinv Hh)). by apply Hinv2.
Qed.

(** ** heappush and heappushpop *)

Lemma heappush_spec (heap : list Device) item :
  ∃ h', heappush priority heap item = Ok h' ∧ h' ≡ₚ item :: heap ∧
        (heap_inv heap → heap_inv h').
Proof.
  unfold heappush. rewrite length_app, Nat.add_sub. cbn [length].
  destruct (siftdown_spec (heap ++ [item]) (length heap) item) as (h' & -> & Hperm & Hinv).
  { by rewrite lookup_app_r, Nat.sub_diag by lia. }
  exists h'. split; [done|]. split.
  - rewrite Hperm. symmetry. apply Permutation_cons_append.
  - intros Hh. apply Hinv.
    + split.
      * intros k a b Hk Hkp Hpk Hka Hkb.
        pose proof (lookup_lt_Some _ _ _ Hka) as Hlt. rewrite length_app in Hlt. cbn in Hlt.
        pose proof (parent_lt k Hk).
        rewrite lookup_app_l in Hka, Hkb by lia. eapply Hh; eauto.
      * intros k a g Hk Hpk Hp Hka Hkg.
        pose proof (lookup_lt_Some _ _ _ Hka) as Hlt. rewrite length_app in Hlt. cbn in Hlt.
        apply (proj1 (parent_children _ _ Hk)) in Hpk; lia.
    + intros k y Hk Hpk Hy.
      pose proof (lookup_lt_Some _ _ _ Hy) as Hlt. rewrite length_app in Hlt. cbn in Hlt.
      apply (proj1 (parent_children _ _ Hk)) in Hpk; lia.
Qed.

(** [heappushpop] hands back either [item] itself, leaving the heap as it
    was, or the root, which is then strictly weaker than [item] and is
    replaced by it. *)
Lemma heappushpop_spec (heap : list Device) item :
  (heappushpop priority heap item = Ok (heap, item) ∧
   ∀ h0, heap !! 0 = Some h0 → lt_dev h0 item = false) ∨
  (∃ h0 tl h', heap = h0 :: tl ∧ lt_dev h0 item = true ∧
     heappushpop priority heap item = Ok (h', h0) ∧ h' ≡ₚ item :: tl ∧
     (heap_inv heap → heap_inv h')).
Proof.
  unfold heappushpop. destruct heap as [|h0 tl]; [left; by split|].
  rewrite bool_decide_true by done. cbn.
  destruct (lt_dev h0 item) eqn:Hlt; cbn; cycle 1.
  { left. split; [done|]. intros ? [= <-]. done. }
  right. rewrite list_set_lt by (cbn; lia). cbn.
  destruct (siftup_spec (item :: tl) item) as (h' & -> & Hperm & Hinv); [done|].
  exists h0, tl, h'. repeat split; [done..|].
  intros Hh. apply Hinv. split.
  - intros k a b Hk Hk0 Hpk Hka Hkb. destruct k as [|k]; [lia|].
    destruct (parent (S k)) as [|q] eqn:Hq; [done|].
    apply (Hh (S k) a b); [lia|done|]. by rewrite Hq.
  - intros; lia.
Qed.

(** ** Node.add_device *)

Lemma set_devices_same n : set_devices n (devices n) = n.
Proof. by destruct n. Qed.

(** The three ways a call to [add_device] can go. *)
Lemma add_device_cases n d :
  ((Z.of_nat (length (devices n)) < resources n)%Z ∧
   ∃ h, add_device priority n d = Ok (set_devices n h, None) ∧ h ≡ₚ d :: devices n ∧
        (heap_inv (devices n) → heap_inv h)) ∨
  ((resources n ≤ Z.of_nat (length (devices n)))%Z ∧
   add_device priority n d = Ok (n, Some d) ∧
   ∀ h0, devices n !! 0 = Some h0 → lt_dev h0 d = false) ∨
  ((resources n ≤ Z.of_nat (length (devices n)))%Z ∧
   ∃ h0 tl h', devices n = h0 :: tl ∧ lt_dev h0 d = true ∧
     add_device priority n d = Ok (set_devices n h', Some h0) ∧ h' ≡ₚ d :: tl ∧
     (heap_inv (devices n) → heap_inv h')).
Proof.
  unfold add_device. case_decide as Hfull.
  - left. split; [done|].
    destruct (heappush_spec (devices n) d) as (h & -> & Hperm & Hinv). by exists h.
  - right. destruct (heappushpop_spec (devices n) d)
      as [[-> Hge] | (h0 & tl & h' & Heq & Hlt & -> & Hperm & Hinv)]; cbn.
    + left. rewrite set_devices_same. split; [lia|done].
    + right. split; [lia|]. by exists h0, tl, h'.
Qed.

Lemma add_device_returns n d : ∃ n' r, add_device priority n d = Ok (n', r).
Proof.
  destruct (add_device_cases n d)
    as [(_ & h & -> & _) | [(_ & -> & _) | (_ & h0 & tl & h' & _ & _ & -> & _)]]; eauto.
Qed.

Lemma add_device_heap_inv n d n' r :
  add_device priority n d = Ok (n', r) → heap_inv (devices n) → heap_inv (devices n').
Proof.
  intros Hadd Hh. destruct (add_device_cases n d)
    as [(_ & h & E & _ & Hinv) | [(_ & E & _) | (_ & h0 & tl & h' & _ & _ & E & _ & Hinv)]];
    rewrite E in Hadd; simplify_eq; cbn; auto.
Qed.

Lemma add_device_static n d n' r :
  add_device priority n d = Ok (n', r) →
  id n' = id n ∧ resources n' = resources n ∧ neighbors n' = neighbors n.
Proof.
  intros Hadd. destruct (add_device_cases n d)
    as [(_ & h & E & _) | [(_ & E & _) | (_ & h0 & tl & h' & _ & _ & E & _)]];
    rewrite E in Hadd; by simplify_eq.
Qed.

Lemma add_device_length n d n' r :
  add_device priority n d = Ok (n', r) →
  (Z.of_nat (length (devices n)) ≤ resources n)%Z →
  (Z.of_nat (length (devices n')) ≤ resources n')%Z.
Proof.
  intros Hadd Hcap. destruct (add_device_cases n d)
    as [(Hlt & h & E & Hperm & _) | [(_ & E & _) | (_ & h0 & tl & h' & Hd & _ & E & Hperm & _)]];
    rewrite E in Hadd; simplify_eq; cbn; [|done|].
  - rewrite Hperm. cbn. lia.
  - rewrite Hperm. rewrite Hd in Hcap. done.
Qed.

Lemma heap_inv_nil : heap_inv [].
Proof. intros k x y _ Hk. by rewrite lookup_nil in Hk. Qed.


Lemma heap_inv_weakest (h : list Device) h0 :
  heap_inv h → h !! 0 = Some h0 → weakest h h0.
Proof.
  intros Hh H0. split; [by eapply list_elem_of_lookup_2|].
  intros y Hy. by apply (heap_inv_root h h0 y).
Qed.

Lemma weakest_value (h : list Device) w w' :
  weakest h w → weakest h w' → value (priority w) = value (priority w').
Proof. intros [Hw Hmin] [Hw' Hmin']. specialize (Hmin _ Hw'). specialize (Hmin' _ Hw).
  unfold Device_le in *. lia.
Qed.

Lemma add_device_evicted_weaker n d n' e :
  add_device priority n d = Ok (n', Some e) → e ≠ d →
  (value (priority e) < value (priority d))%Z.
Proof.
  intros Hadd Hne. destruct (add_device_cases n d)
    as [(_ & h & E & _) | [(_ & E & _) | (_ & h0 & tl & h' & _ & Hlt & E & _)]];
    rewrite E in Hadd; simplify_eq. by apply Device_lt_true.
Qed.

Lemma add_device_placed n d n' r :
  add_device priority n d = Ok (n', r) → r ≠ Some d → d ∈ devices n'.
Proof.
  intros Hadd Hne. destruct (add_device_cases n d)
    as [(_ & h & E & Hperm & _) | [(_ & E & _) | (_ & h0 & tl & h' & _ & _ & E & Hperm & _)]];
    rewrite E in Hadd; simplify_eq; cbn; rewrite Hperm; by left.
Qed.

(** ** Properties of [Node.add_device] *)

Arguments add_device : simpl never.

Lemma add_devices_capacity n ds :
  (Z.of_nat (length (devices n)) ≤ resources n)%Z →
  ∃ n', add_devices priority n ds = Ok n' ∧ resources n' = resources n ∧
        (Z.of_nat (length (devices n')) ≤ resources n')%Z.
Proof.
  revert n. induction ds as [|d ds IH]; intros n Hcap; [by exists n|].
  destruct (add_device_returns n d) as (n1 & r & Hadd). cbn. rewrite Hadd. cbn.
  destruct (IH n1) as (n' & -> & Hres & Hlen).
  { by eapply add_device_length. }
  exists n'. split_and!; [done| |done].
  rewrite Hres. by eapply add_device_static.
Qed.

(** C1. Capacity invariant: on a node whose collection holds no more devices
    than [resources], every call of [add_device] returns and leaves a
    collection that again holds no more than [resources], and so does
    every sequence of such calls. *)
Theorem add_device_preserves_capacity (n : Node) :
  (Z.of_nat (length (devices n)) ≤ resources n)%Z →
  (∀ d, ∃ n' r, add_device priority n d = Ok (n', r) ∧ resources n' = resources n ∧
                (Z.of_nat (length (devices n')) ≤ resources n')%Z) ∧
  (∀ ds, ∃ n', add_devices priority n ds = Ok n' ∧ resources n' = resources n ∧
               (Z.of_nat (length (devices n')) ≤ resources n')%Z).
Proof.
  intros Hcap. split.
  - intros d. destruct (add_device_returns n d) as (n' & r & Hadd).
    exists n', r. split_and!; [done| |by eapply add_device_length].
    by eapply add_device_static.
  - intros ds. by apply add_devices_capacity.
Qed.

(** C2. Eviction at full occupancy: on a node whose collection is in heap
    order, holds each device once and is full, [add_device(D)] returns a
    device E.  E differs from D exactly when D is strictly stronger than
    the weakest assigned device; when D is exactly as strong as the
    weakest, D itself comes back and the node is untouched; and when E
    differs from D, E was strictly weaker than D, D is in the collection
    afterwards and E is not. *)
Theorem add_device_evicts_iff_stronger (n : Node) (d : Device) :
  heap_inv (devices n) → NoDup (devices n) →
  (resources n ≤ Z.of_nat (length (devices n)))%Z →
  ∃ n' e, add_device priority n d = Ok (n', Some e) ∧
    (e ≠ d ↔ ∃ w, weakest (devices n) w ∧ (value (priority w) < value (priority d))%Z) ∧
    (∀ w, weakest (devices n) w → value (priority w) = value (priority d) →
          e = d ∧ n' = n) ∧
    (e ≠ d → (value (priority e) < value (priority d))%Z ∧
             d ∈ devices n' ∧ e ∉ devices n').
Proof.
  intros Hh Hnd Hfull. destruct (add_device_cases n d)
    as [(Hlt & _) | [(_ & E & Hge) | (_ & h0 & tl & h' & Hd & Hlt & E & Hperm & _)]]; [lia| |].
  - exists n, d. split_and!; [done| |done|done].
    split; [done|]. intros (w & Hw & Hlt). exfalso.
    destruct (devices n) as [|h0 tl] eqn:Hd.
    { destruct Hw as [Hin _]. by apply elem_of_nil in Hin. }
    specialize (Hge h0 eq_refl). apply Device_lt_false in Hge.
    pose proof (heap_inv_weakest (h0 :: tl) h0 Hh eq_refl) as Hw0.
    pose proof (weakest_value _ _ _ Hw Hw0). unfold Device_le in *. lia.
  - apply Device_lt_true in Hlt.
    assert (weakest (devices n) h0) as Hw0.
    { apply heap_inv_weakest; [done|]. by rewrite Hd. }
    assert (h0 ≠ d) as Hne by (intros ->; lia).
    exists (set_devices n h'), h0. split_and!; [done| | |].
    + split; [|done]. intros _. by exists h0.
    + intros w Hw Heq. pose proof (weakest_value _ _ _ Hw Hw0). lia.
    + intros _. cbn. rewrite Hperm. split_and!; [done|set_solver|].
      rewrite Hd in Hnd. apply NoDup_cons in Hnd as [Hnotin _]. set_solver.
Qed.

(** C7. Rejection: when [add_device] returns the device it was given, the
    node, and with it the assignment collection, is as it was before the
    call. *)
Theorem add_device_rejection_unchanged (n n' : Node) (d : Device) :
  add_device priority n d = Ok (n', Some d) → n' = n ∧ devices n' = devices n.
Proof.
  intros Hadd. destruct (add_device_cases n d)
    as [(_ & h & E & _) | [(_ & E & _) | (_ & h0 & tl & h' & _ & Hlt & E & _)]];
    rewrite E in Hadd; simplify_eq; [done|].
  apply Device_lt_true in Hlt. lia.
Qed.

(** C8. Free slot: [add_device] returns [None] exactly when the collection
    holds fewer devices than [resources] at the call; the collection
    afterwards then consists of the device and all the devices that were
    there, none evicted. *)
Theorem add_device_none_iff_free (n : Node) (d : Device) :
  ∃ n' r, add_device priority n d = Ok (n', r) ∧
    (r = None ↔ (Z.of_nat (length (devices n)) < resources n)%Z) ∧
    (r = None → devices n' ≡ₚ d :: devices n ∧
                length (devices n') = S (length (devices n))).
Proof.
  destruct (add_device_cases n d)
    as [(Hlt & h & E & Hperm & _) | [(Hge & E & _) | (Hge & h0 & tl & h' & _ & _ & E & _)]];
    rewrite E; eexists _, _; (split; [done|]).
  - split; [done|]. intros _. cbn. split; [done|]. by rewrite Hperm.
  - split; [split; [done|lia] | done].
  - split; [split; [done|lia] | done].
Qed.

(** C10. Totality: [add_device] returns on every node and device, raising
    nothing; on a node of capacity 0, whose collection is empty, it hands
    the device back and the collection stays empty. *)
Theorem add_device_total (n : Node) (d : Device) :
  (∃ n' r, add_device priority n d = Ok (n', r)) ∧
  (resources n = 0%Z ∧ devices n = [] →
   add_device priority n d = Ok (n, Some d)).
Proof.
  split; [apply add_device_returns|]. intros [Hres Hd].
  destruct (add_device_cases n d)
    as [(Hlt & _) | [(_ & E & _) | (_ & h0 & tl & h' & Hd' & _)]];
    [rewrite Hd in Hlt; cbn in Hlt; lia | done | congruence].
Qed.

(** ** random.sample and get_resources *)

Lemma sample_loop_returns {A : Type} rnd t (pool : list A) n i k :
  length pool = n → i + k ≤ n →
  ∃ l, sample_loop rnd t pool n i k = Ok l ∧ length l = k.
Proof.
  revert pool i. induction k as [|k IH]; intros pool i Hn Hik; cbn.
  { by exists []. }
  assert (randbelow rnd (t + i) (n - i) < n - i) as Hj.
  { unfold randbelow. apply Nat.mod_upper_bound. lia. }
  destruct (list_get_lt pool (randbelow rnd (t + i) (n - i))) as (x & -> & Hx); [lia|].
  destruct (list_get_lt pool (n - i - 1)) as (y & -> & Hy); [lia|]. cbn.
  rewrite list_set_lt by lia. cbn.
  destruct (IH (<[randbelow rnd (t + i) (n - i) := y]> pool) (S i)) as (l & -> & Hlen).
  { by rewrite length_insert. } { lia. }
  cbn. exists (x :: l). by rewrite <- Hlen.
Qed.

Lemma random_sample_returns {A : Type} rnd t (population : list A) (k : Z) :
  (0 ≤ k ≤ Z.of_nat (length population))%Z →
  ∃ l, random_sample rnd t population k = Ok l ∧ length l = Z.to_nat k.
Proof.
  intros Hk. unfold random_sample. rewrite decide_True by done.
  apply sample_loop_returns; [done|lia].
Qed.

Lemma range_length a b : length (range a b) = Z.to_nat (b - a).
Proof. unfold range. by rewrite length_fmap, length_seq. Qed.

(** C9. Configuration error: for positive [N] and [U], [get_resources]
    raises [ValueError] exactly when [U < N]; when [N <= U] it returns a
    list, whatever the random draws. *)
Theorem get_resources_error_iff (rnd : nat → nat) (t : nat) (N U : Z) :
  (0 < N)%Z → (0 < U)%Z →
  (get_resources rnd t N U = Raise ValueError ↔ (U < N)%Z) ∧
  ((N ≤ U)%Z → ∃ l, get_resources rnd t N U = Ok l).
Proof.
  intros HN HU. unfold get_resources. case_decide as Hlt.
  { split; [done|lia]. }
  destruct (random_sample_returns rnd t (range 1 U) (N - 1)) as (l & Hl & _).
  { rewrite range_length. lia. }
  unfold constrained_sum_sample_pos. rewrite Hl. cbn. split; [split; [done|lia]|eauto].
Qed.

End Facts.

(** * The assignment phase *)

(** ** The frontier dictionary *)

Lemma dict_get_update_eq fr k s :
  dict_get (dict_update fr k s) k = Ok (level fr k ∪ s).
Proof.
  unfold level. induction fr as [|[k' s'] fr IH]; cbn.
  - by rewrite decide_True.
  - case_decide; cbn; [by rewrite decide_True|]. by rewrite decide_False.
Qed.

Lemma dict_get_update_ne fr k j s :
  j ≠ k → dict_get (dict_update fr k s) j = dict_get fr j.
Proof.
  intros Hne. induction fr as [|[k' s'] fr IH]; cbn.
  - by rewrite decide_False.
  - case_decide; cbn; [subst; by rewrite !decide_False|]. by rewrite IH.
Qed.

Lemma level_update_eq fr k s : level (dict_update fr k s) k = level fr k ∪ s.
Proof. unfold level at 1. by rewrite dict_get_update_eq. Qed.

Lemma level_update_ne fr k j s : j ≠ k → level (dict_update fr k s) j = level fr j.
Proof. intros Hne. unfold level. by rewrite dict_get_update_ne. Qed.

Lemma dict_get_Ok_keys fr k : (∃ s, dict_get fr k = Ok s) ↔ k ∈ fr.*1.
Proof.
  induction fr as [|[k' s'] fr IH]; cbn.
  - split; [by intros [? ?]|by intros ?%elem_of_nil].
  - case_decide as Hk; [subst; split; [intros _; left|eauto]|].
    rewrite IH. set_solver.
Qed.

Lemma dict_update_keys fr k s a :
  fr.*1 = seq a (length fr) → a ≤ k ≤ a + length fr →
  (dict_update fr k s).*1 = seq a (length (dict_update fr k s)) ∧
  length (dict_update fr k s) = Nat.max (length fr) (S k - a).
Proof.
  revert a. induction fr as [|[k' s'] fr IH]; intros a Hkeys Hk; cbn in *.
  - assert (k = a) as -> by lia. split; [done|lia].
  - injection Hkeys as -> Hkeys. case_decide as Hd; cbn.
    + subst. split; [by rewrite Hkeys|lia].
    + destruct (IH (S a) Hkeys) as [-> ->]; [lia|]. split; [done|lia].
Qed.

Lemma last_key_seq fr :
  fr.*1 = seq 0 (length fr) → fr ≠ [] → last_key fr = Ok (length fr - 1).
Proof.
  intros Hkeys Hne. unfold last_key.
  destruct (last fr) as [[k s]|] eqn:Hlast; [|by apply last_None in Hlast].
  rewrite last_lookup in Hlast.
  assert (fr.*1 !! pred (length fr) = Some k) as Hk by (by rewrite list_lookup_fmap, Hlast).
  rewrite Hkeys in Hk. apply lookup_seq in Hk as [-> _]. f_equal. lia.
Qed.

Section Search.

Context (priority : Device → Priority) (connected_node : Device → NodeId) (rnd : nat → nat).

Local Abbreviation probe_of := (probe_of connected_node).
Local Abbreviation step := (step priority connected_node rnd).
Local Abbreviation run := (run priority connected_node rnd).
Local Abbreviation find_node_iter := (find_node_iter priority connected_node rnd).
Local Abbreviation find_node_enter := (find_node_enter connected_node).
Local Abbreviation after_try := (after_try connected_node).
Local Abbreviation after_advance := (after_advance connected_node).
Local Abbreviation graph_closed := (graph_closed connected_node).
Local Abbreviation search_ok := (search_ok connected_node).
Local Abbreviation search_inv := (search_inv connected_node).

(** ** rand_from_set *)

Lemma rand_from_set_elem t (f : gset NodeId) :
  f ≠ ∅ → ∃ n, rand_from_set rnd t f = Ok n ∧ n ∈ f.
Proof.
  intros Hf. unfold rand_from_set, random_sample.
  assert (0 < length (elements f)) as Hlen.
  { destruct (elements f) eqn:E; [|cbn; lia]. by apply elements_empty_inv, leibniz_equiv in E. }
  rewrite decide_True by lia. change (Z.to_nat 1) with 1. cbn [sample_loop].
  assert (randbelow rnd (t + 0) (length (elements f) - 0) < length (elements f)) as Hj.
  { unfold randbelow. rewrite Nat.sub_0_r. apply Nat.mod_upper_bound. lia. }
  destruct (list_get_lt (elements f) _ Hj) as (x & -> & Hx).
  destruct (list_get_lt (elements f) (length (elements f) - 0 - 1)) as (y & -> & _); [lia|].
  cbn. rewrite list_set_lt by done. cbn. exists x. split; [done|].
  apply elem_of_elements. by eapply list_elem_of_lookup_2.
Qed.

(** ** The graph *)

Lemma reachable_dom g o n :
  graph_closed g → o ∈ dom g → reachable g o n → n ∈ dom g.
Proof.
  intros [Hcl _] Ho. induction 1 as [|n N m _ IH HN Hm]; [done|].
  by apply (Hcl n N).
Qed.

Lemma same_graph_lookup g g' n N :
  same_graph g g' → g' !! n = Some N →
  ∃ N0, g !! n = Some N0 ∧ neighbors N0 = neighbors N.
Proof.
  intros Hs HN. specialize (Hs n). rewrite HN in Hs. cbn in Hs.
  destruct (g !! n) as [N0|]; [|done]. exists N0. split; [done|]. by injection Hs.
Qed.

Lemma same_graph_dom g g' n :
  same_graph g g' → n ∈ dom g → ∃ N, g' !! n = Some N.
Proof.
  intros Hs [N0 HN0]%elem_of_dom. specialize (Hs n). rewrite HN0 in Hs.
  destruct (g' !! n) as [N|]; [by exists N|done].
Qed.

Lemma same_graph_nbrs g g' n N :
  same_graph g g' → g' !! n = Some N → nbrs g n = neighbors N.
Proof.
  intros Hs HN. destruct (same_graph_lookup g g' n N Hs HN) as (N0 & HN0 & Hn).
  unfold nbrs. by rewrite HN0.
Qed.

Lemma probe_ok_length g o p : probe_ok g o p → 0 < length (frontier p).
Proof. intros (_ & H0 & _). destruct (frontier p); [done|cbn; lia]. Qed.

(** ** One iteration of find_node *)

(** Under the invariant an iteration raises nothing, and goes one of three
    ways: the loop ends, the distance advances, or a node is tried. *)
Lemma find_node_iter_cases g c d :
  graph_closed g → same_graph g (nodes (world c)) →
  probe_ok g (connected_node d) (probe_of (world c) d) →
  let p := probe_of (world c) d in
  (length (frontier p) ≤ distance p ∧
   find_node_iter c d = Ok (set_pc c (Done d None None))) ∨
  (distance p < length (frontier p) ∧ level (frontier p) (distance p) ⊆ visited p ∧
   find_node_iter c d = Ok (after_advance c d)) ∨
  (distance p < length (frontier p) ∧
   ∃ n N N' r, n ∈ level (frontier p) (distance p) ∧ (n ∉ visited p) ∧
     nodes (world c) !! n = Some N ∧ add_device priority N d = Ok (N', r) ∧
     find_node_iter c d
       = Ok (after_try c d n N N' r)).
Proof.
  intros Hg Hs Hp p. pose proof (probe_ok_length _ _ _ Hp) as Hlen.
  destruct Hp as (Hkeys & H0 & Hreach). fold p in Hkeys, H0, Hreach, Hlen.
  unfold find_node_iter. fold p.
  rewrite (last_key_seq (frontier p)); [|done|intros E; rewrite E in Hlen; cbn in Hlen; lia].
  cbn. case_decide as Hd; cycle 1.
  { left. split; [lia|done]. }
  right. assert (distance p < length (frontier p)) as Hlt by lia.
  destruct (proj2 (dict_get_Ok_keys (frontier p) (distance p))) as [s Hs'].
  { rewrite Hkeys. apply elem_of_seq. lia. }
  assert (level (frontier p) (distance p) = s) as Hlev by (unfold level; by rewrite Hs').
  rewrite Hs'. cbn. case_decide as Hf; cycle 1.
  { left. split; [done|]. split; [|done]. rewrite Hlev.
    set_solver. }
  right. split; [done|].
  destruct (rand_from_set_elem (clock c) _ Hf) as (n & -> & Hn). cbn.
  apply elem_of_difference in Hn as [Hns Hnv].
  assert (n ∈ dom g) as Hdom.
  { eapply reachable_dom; [done|apply Hg|]. apply (Hreach (distance p)). by rewrite Hlev. }
  destruct (same_graph_dom _ _ _ Hs Hdom) as [N HN].
  unfold node_of. rewrite HN. cbn.
  destruct (add_device_returns priority N d) as (N' & r & Hadd). rewrite Hadd. cbn.
  exists n, N, N', r. by rewrite Hlev.
Qed.

(** ** The invariant of the search *)

Lemma probe_of_insert_eq ns ps d p :
  probe_of {| nodes := ns; probes := <[d := p]> ps |} d = p.
Proof. unfold probe_of. cbn. by rewrite lookup_insert_eq. Qed.

Lemma probe_of_insert_ne ns ns' ps d d' p :
  d' ≠ d →
  probe_of {| nodes := ns; probes := <[d := p]> ps |} d'
  = probe_of {| nodes := ns'; probes := ps |} d'.
Proof. intros Hne. unfold probe_of. cbn. by rewrite lookup_insert_ne. Qed.

Lemma probe_of_same_probes w w' d : probes w = probes w' → probe_of w d = probe_of w' d.
Proof. unfold probe_of. by intros ->. Qed.

Lemma probe_ok_frontier g o p p' :
  frontier p' = frontier p → probe_ok g o p → probe_ok g o p'.
Proof. unfold probe_ok. by intros ->. Qed.

Lemma probe_ok_init g o : probe_ok g o (Probe_init o).
Proof.
  split_and!; [done|done|]. intros k n. unfold level. cbn.
  case_decide; [|by intros ?%elem_of_empty].
  intros ->%elem_of_singleton. constructor.
Qed.

Lemma tried_at_cons k0 n tr k :
  tried_at ((k0, n) :: tr) k = if decide (k0 = k) then n :: tried_at tr k else tried_at tr k.
Proof. unfold tried_at. rewrite filter_cons. cbn. by case_decide. Qed.

(** Registering the neighbours of a node reached from [o] keeps the
    frontier well formed. *)
Lemma probe_ok_update g o p k n N vis dist :
  probe_ok g o p → k < length (frontier p) → n ∈ level (frontier p) k →
  g !! n = Some N →
  probe_ok g o {| distance := dist;
                  frontier := dict_update (frontier p) (k + 1) (neighbors N);
                  visited := vis |}.
Proof.
  intros (Hkeys & H0 & Hreach) Hk Hn HN. split_and!; cbn.
  - apply (dict_update_keys _ _ _ 0); [done|lia].
  - rewrite dict_get_update_ne by lia. done.
  - intros j m. destruct (decide (j = k + 1)) as [->|Hj].
    + rewrite level_update_eq. intros [Hm|Hm]%elem_of_union; [by eapply Hreach|].
      eapply reachable_edge; [by eapply Hreach|done..].
    + rewrite level_update_ne by done. apply Hreach.
Qed.

Lemma search_inv_enter g c d : search_inv g c → search_inv g (find_node_enter c d).
Proof.
  intros (Hs & Hp & _). split_and!; cbn.
  - done.
  - intros d'. destruct (decide (d' = d)) as [->|Hne].
    + rewrite probe_of_insert_eq. by eapply probe_ok_frontier; [|apply (Hp d)].
    + rewrite (probe_of_insert_ne _ (nodes (world c))) by done.
      destruct c as [[ns ps] ?]; apply Hp.
  - intros d' [= <-]. unfold search_ok. cbn. rewrite probe_of_insert_eq. cbn.
    split_and!; [done|constructor|by intros k n ?%elem_of_nil..|].
    intros k. set_solver.
Qed.

Lemma search_inv_advance g c d :
  pc c = Loop d → search_inv g c → search_inv g (after_advance c d).
Proof.
  intros Hpc (Hs & Hp & Hd). split_and!; cbn.
  - done.
  - intros d'. destruct (decide (d' = d)) as [->|Hne].
    + rewrite probe_of_insert_eq. by eapply probe_ok_frontier; [|apply (Hp d)].
    + rewrite (probe_of_insert_ne _ (nodes (world c))) by done.
      destruct c as [[ns ps] ?]; apply Hp.
  - intros d' [= <-]. specialize (Hd d). unfold searching in Hd. rewrite Hpc in Hd.
    specialize (Hd eq_refl). unfold search_ok in *. cbn. by rewrite probe_of_insert_eq.
Qed.

Lemma search_inv_set_pc g c p :
  (∀ d, searching (set_pc c p) = Some d → searching c = Some d) →
  search_inv g c → search_inv g (set_pc c p).
Proof.
  intros Hse (Hs & Hp & Hd). split_and!; [done|done|].
  intros d Hd'. apply (Hd d), Hse, Hd'.
Qed.

Lemma searching_after_try c d n N N' r : searching (after_try c d n N N' r) = Some d.
Proof. unfold searching. cbn. destruct r as [d'|]; [|done]. by destruct (negb _). Qed.

Lemma search_inv_try g c d n N N' r :
  pc c = Loop d → search_inv g c →
  distance (probe_of (world c) d) < length (frontier (probe_of (world c) d)) →
  n ∈ level (frontier (probe_of (world c) d)) (distance (probe_of (world c) d)) →
  n ∉ visited (probe_of (world c) d) →
  nodes (world c) !! n = Some N → add_device priority N d = Ok (N', r) →
  search_inv g (after_try c d n N N' r).
Proof.
  intros Hpc (Hs & Hp & Hd) Hlt Hn Hnv HN Hadd.
  destruct (same_graph_lookup _ _ _ _ Hs HN) as (N0 & HN0 & Hnb).
  apply add_device_static in Hadd as (_ & _ & Hnb').
  specialize (Hd d). unfold searching in Hd. rewrite Hpc in Hd.
  destruct (Hd eq_refl) as (Hvis & Hnd & Hin & Hkey & Hlev).
  split_and!.
  - intros m. cbn. destruct (decide (m = n)) as [->|Hm].
    + rewrite lookup_insert_eq, HN0. cbn. congruence.
    + rewrite lookup_insert_ne by done. apply Hs.
  - intros d'. cbn. destruct (decide (d' = d)) as [->|Hne].
    + rewrite probe_of_insert_eq. unfold get_neighbors. rewrite <- Hnb.
      by eapply probe_ok_update.
    + rewrite (probe_of_insert_ne _ (nodes (world c))) by done.
      destruct c as [[ns ps] ?]; apply Hp.
  - intros d'. rewrite searching_after_try. intros [= <-].
    unfold search_ok. cbn. rewrite probe_of_insert_eq. cbn. split_and!.
    + rewrite Hvis. set_solver.
    + apply NoDup_cons. split; [|done]. rewrite Hvis in Hnv. set_solver.
    + intros k m [[= -> ->]|Hin']%elem_of_cons.
      * by rewrite level_update_ne by lia.
      * destruct (decide (k = distance (probe_of (world c) d) + 1)) as [->|Hk].
        -- rewrite level_update_eq. apply elem_of_union_l. by apply Hin.
        -- rewrite level_update_ne by done. by apply Hin.
    + intros k m [[= -> ->]|Hin']%elem_of_cons.
      * rewrite Nat.add_1_r, dict_get_update_eq. eauto.
      * destruct (decide (S k = distance (probe_of (world c) d) + 1)) as [->|Hk].
        -- rewrite dict_get_update_eq. eauto.
        -- rewrite dict_get_update_ne by done. by eapply Hkey.
    + intros k. rewrite tried_at_cons. case_decide as Hk.
      * subst k. rewrite Nat.add_1_r, level_update_eq, Hlev. cbn.
        unfold get_neighbors. rewrite <- Hnb. unfold nbrs at 2. rewrite HN0. set_solver.
      * rewrite level_update_ne by lia. apply Hlev.
Qed.

(** Every step that starts from the invariant returns and re-establishes it. *)
Lemma step_search_inv g c :
  graph_closed g → search_inv g c → ∃ c', step c = Ok c' ∧ search_inv g c'.
Proof.
  intros Hg Hinv. unfold step. destruct (pc c) as [|d|d|d pl ev] eqn:Hpc.
  - eexists. split; [done|]. unfold main_next. destruct (pending c) as [|d rest]; [done|].
    destruct Hinv as (Hs & Hp & Hd). split_and!; [done|done|]. intros d'. by cbn.
  - eexists. split; [done|]. by apply search_inv_enter.
  - pose proof Hinv as (Hs & Hp & _).
    destruct (find_node_iter_cases g c d Hg Hs (Hp d))
      as [(_ & ->) | [(_ & _ & ->) | (Hlt & n & N & N' & r & Hn & Hnv & HN & Hadd & ->)]];
      (eexists; split; [done|]).
    + apply search_inv_set_pc; [|done]. unfold searching. cbn. by rewrite Hpc.
    + by apply search_inv_advance.
    + by apply search_inv_try.
  - eexists. split; [done|]. unfold find_node_leave.
    destruct ev; by apply search_inv_set_pc.
Qed.

Lemma search_inv_initial g ds : search_inv g (initial g ds).
Proof.
  split_and!; [done| |done]. intros d. unfold probe_of. cbn.
  rewrite lookup_empty. apply probe_ok_init.
Qed.

Lemma run_search_inv g c k :
  graph_closed g → search_inv g c → ∃ c', run k c = Ok c' ∧ search_inv g c'.
Proof.
  intros Hg. revert c. induction k as [|k IH]; intros c Hinv; [by exists c|].
  destruct (step_search_inv g c Hg Hinv) as (c1 & Hstep & Hinv1).
  cbn. rewrite Hstep. cbn. by apply IH.
Qed.

(** ** Termination *)

Lemma run_add j1 j2 c : run (j1 + j2) c = run j1 c ≫= run j2.
Proof.
  revert c. induction j1 as [|j1 IH]; intros c; [done|].
  cbn. destruct (step c) as [c1|e]; [|done]. cbn. apply IH.
Qed.

Lemma run_then j1 j2 c c1 c2 :
  run j1 c = Ok c1 → run j2 c1 = Ok c2 → run (j1 + j2) c = Ok c2.
Proof. intros H1 H2. by rewrite run_add, H1. Qed.

Lemma iterations_left_advance R c d :
  distance (probe_of (world c) d) < length (frontier (probe_of (world c) d)) →
  iterations_left connected_node R (after_advance c d) d
  < iterations_left connected_node R c d.
Proof.
  intros Hlt. unfold iterations_left. cbn. rewrite probe_of_insert_eq. cbn. lia.
Qed.

Lemma iterations_left_try g R c d n N N' r :
  probe_ok g (connected_node d) (probe_of (world c) d) →
  distance (probe_of (world c) d) < length (frontier (probe_of (world c) d)) →
  n ∈ R → n ∉ visited (probe_of (world c) d) →
  iterations_left connected_node R (after_try c d n N N' r) d
  < iterations_left connected_node R c d.
Proof.
  intros (Hkeys & _) Hlt Hn Hnv. unfold iterations_left. cbn.
  rewrite probe_of_insert_eq. cbn.
  set (p := probe_of (world c) d) in *.
  destruct (dict_update_keys (frontier p) (distance p + 1) (get_neighbors N) 0 Hkeys)
    as [_ ->]; [lia|].
  assert (R ∖ visited p = {[n]} ∪ R ∖ (visited p ∪ {[n]})) as ->.
  { apply set_eq. intros x. rewrite elem_of_union, !elem_of_difference, elem_of_union,
      elem_of_singleton. destruct (decide (x = n)); naive_solver. }
  assert ({[n]} ## R ∖ (visited p ∪ {[n]})) as Hdisj by set_solver.
  rewrite (size_union _ _ Hdisj), size_singleton. lia.
Qed.

(** A running search leaves its loop, within as many steps as
    [iterations_left] counts, plus one: the device is in a node, or the
    frontier is used up. *)
Lemma search_halts g R :
  graph_closed g → ∀ m c d,
  (∀ n, reachable g (connected_node d) n → n ∈ R) →
  search_inv g c → pc c = Loop d → iterations_left connected_node R c d ≤ m →
  ∃ j c' pl ev,
    run j c = Ok c' ∧ 0 < j ≤ S m ∧ pc c' = Done d pl ev ∧ pending c' = pending c ∧
    search_inv g c' ∧
    (∀ e, ev = Some e → (value (priority e) < value (priority d))%Z) ∧
    (∀ n, pl = Some n → ∃ N, nodes (world c') !! n = Some N ∧ d ∈ devices N) ∧
    (pl = None → ev = None ∧
       length (frontier (probe_of (world c') d)) ≤ distance (probe_of (world c') d)).
Proof.
  intros Hg m. induction (lt_wf m) as [m _ IH]. intros c d HR Hinv Hpc Hm.
  pose proof Hinv as (Hs & Hp & _).
  destruct (find_node_iter_cases g c d Hg Hs (Hp d))
    as [(Hge & Hit) | [(Hlt & _ & Hit) | (Hlt & n & N & N' & r & Hn & Hnv & HN & Hadd & Hit)]].
  - exists 1, (set_pc c (Done d None None)), None, None.
    split_and!; [by cbn; unfold step; rewrite Hpc, Hit|lia|lia|done..| |done|done|done].
    apply search_inv_set_pc; [|done]. unfold searching. cbn. by rewrite Hpc.
  - pose proof (iterations_left_advance R c d Hlt) as Hdec.
    destruct (IH (iterations_left connected_node R (after_advance c d) d))
      with (c := after_advance c d) (d := d)
      as (j & c' & pl & ev & Hrun & Hj & Hpc' & Hpend & Hinv' & Hw & Hpl & Hex);
      [lia|done| |done|done|].
    { by apply search_inv_advance. }
    exists (S j), c', pl, ev. split_and!; [|lia|lia|done..].
    cbn. unfold step. by rewrite Hpc, Hit.
  - assert (search_inv g (after_try c d n N N' r)) as Hinv1 by (by apply search_inv_try).
    assert (n ∈ R) as Hdom.
    { destruct (Hp d) as (_ & _ & Hreach). by eapply HR, Hreach. }
    assert (run 1 c = Ok (after_try c d n N N' r)) as Hrun1.
    { cbn. unfold step. by rewrite Hpc, Hit. }
    assert (nodes (world (after_try c d n N N' r)) !! n = Some N') as HN'.
    { cbn. apply lookup_insert_eq. }
    destruct r as [e|].
    + destruct (decide (e = d)) as [->|Hne].
      * pose proof (iterations_left_try g R c d n N N' (Some d) (Hp d) Hlt Hdom Hnv) as Hdec.
        destruct (IH (iterations_left connected_node R (after_try c d n N N' (Some d)) d))
          with (c := after_try c d n N N' (Some d)) (d := d)
          as (j & c' & pl & ev & Hrun & Hj & Hpc' & Hpend & Hinv' & Hw & Hpl & Hex);
          [lia|done|done| |done|].
        { cbn. unfold Device_eq. by rewrite bool_decide_true. }
        exists (S j), c', pl, ev. split_and!; [|lia|lia|done..].
        by apply (run_then 1 j _ _ _ Hrun1).
      * exists 1, (after_try c d n N N' (Some e)), (Some n), (Some e).
        split_and!; [done|lia|lia| |done|done| | |done].
        -- cbn. unfold Device_eq. by rewrite bool_decide_false.
        -- intros ? [= <-]. by eapply add_device_evicted_weaker.
        -- intros ? [= <-]. exists N'. split; [done|].
           eapply add_device_placed; [done|]. by intros [= ->].
    + exists 1, (after_try c d n N N' None), (Some n), None.
      split_and!; [done|lia|lia|done|done|done|done| |done].
      intros ? [= <-]. exists N'. split; [done|]. by eapply add_device_placed.
Qed.

Lemma value_pos p : (1 ≤ value p ≤ 5)%Z.
Proof. destruct p; cbn; lia. Qed.

(** A call of [assign_device] returns to main: the search ends, and so
    does the search of the device it displaced, and so on; a displaced
    device is strictly weaker than the one that displaced it. *)
Lemma cascade_halts g :
  graph_closed g → ∀ v c d,
  search_inv g c → pc c = Call d ∨ pc c = Loop d →
  Z.to_nat (value (priority d)) ≤ v →
  ∃ j c', run j c = Ok c' ∧ pc c' = Main ∧ pending c' = pending c ∧ search_inv g c'.
Proof.
  intros Hg v. induction v as [|v IH]; intros c d Hinv Hpc Hv.
  { pose proof (value_pos (priority d)). lia. }
  assert (∃ j0 c0, run j0 c = Ok c0 ∧ pc c0 = Loop d ∧ pending c0 = pending c ∧
                   search_inv g c0) as (j0 & c0 & Hrun0 & Hpc0 & Hpend0 & Hinv0).
  { destruct Hpc as [Hpc|Hpc]; [|by exists 0, c].
    exists 1, (find_node_enter c d). split_and!; [|done|done|by apply search_inv_enter].
    cbn. unfold step. by rewrite Hpc. }
  destruct (search_halts g (dom g) Hg
              (iterations_left connected_node (dom g) c0 d) c0 d)
    as (j1 & c1 & pl & ev & Hrun1 & _ & Hpc1 & Hpend1 & Hinv1 & Hweak & _); [|done|done|lia|].
  { intros n. apply reachable_dom; [done|apply Hg]. }
  destruct ev as [e|].
  - destruct (IH (set_pc c1 (Call e)) e) as (j2 & c2 & Hrun2 & Hpc2 & Hpend2 & Hinv2).
    { by apply search_inv_set_pc. } { by left. }
    { specialize (Hweak e eq_refl). pose proof (value_pos (priority e)). lia. }
    exists (j0 + (j1 + (1 + j2))), c2. split_and!; [|done|by rewrite Hpend2; cbn; congruence|done].
    eapply run_then; [done|]. eapply run_then; [done|]. eapply run_then; [|done].
    cbn. unfold step. by rewrite Hpc1.
  - exists (j0 + (j1 + 1)), (set_pc c1 Main).
    split_and!; [|done|cbn; congruence|by apply search_inv_set_pc].
    eapply run_then; [done|]. eapply run_then; [done|].
    cbn. unfold step. by rewrite Hpc1.
Qed.

(** The whole assignment phase ends: main reaches the end of its loop over
    the devices. *)
Lemma main_halts g :
  graph_closed g → ∀ c, search_inv g c → pc c = Main →
  ∃ j c', run j c = Ok c' ∧ pc c' = Main ∧ pending c' = [] ∧ search_inv g c'.
Proof.
  intros Hg c. remember (pending c) as ds eqn:Hds. revert c Hds.
  induction ds as [|d ds IH]; intros c Hds Hinv Hpc; [by exists 0, c|].
  assert (run 1 c = Ok (main_next c)) as Hrun1.
  { cbn. unfold step. by rewrite Hpc. }
  assert (search_inv g (main_next c) ∧ pc (main_next c) = Call d ∧ pending (main_next c) = ds)
    as (Hinv1 & Hpc1 & Hpend1).
  { unfold main_next. rewrite <- Hds. split_and!; [|done|done].
    destruct Hinv as (Hs & Hp & _). by split_and!. }
  destruct (cascade_halts g Hg _ (main_next c) d Hinv1 (or_introl Hpc1) (le_n _))
    as (j2 & c2 & Hrun2 & Hpc2 & Hpend2 & Hinv2).
  destruct (IH c2) as (j3 & c3 & Hrun3 & Hpc3 & Hpend3 & Hinv3); [congruence|done|done|].
  exists (1 + (j2 + j3)), c3. split_and!; [|done..].
  eapply run_then; [done|]. by eapply run_then.
Qed.

(** The nodes a search has tried are distinct and can be reached from the
    origin of the device. *)
Lemma trail_bound g c d (R : gset NodeId) :
  search_inv g c → searching c = Some d →
  (∀ n, reachable g (connected_node d) n → n ∈ R) →
  length (trail c) ≤ size R.
Proof.
  intros (_ & Hp & Hd) Hse HR. destruct (Hd d Hse) as (_ & Hnd & Hin & _).
  destruct (Hp d) as (_ & _ & Hreach).
  rewrite <- (length_fmap snd), <- (size_list_to_set (C := gset NodeId)) by done.
  apply subseteq_size. intros n Hn. apply elem_of_list_to_set in Hn.
  apply list_elem_of_fmap in Hn as ([k n'] & -> & Hkn). cbn.
  eapply HR, Hreach, Hin, Hkn.
Qed.

(** C3. Termination: every call of [find_node], from main or for a
    displaced device, leaves its loop with the device placed in a node or
    with the frontier used up and the device unplaced; it has then tried at
    most as many nodes as the origin of the device can reach, [R] being
    any set that holds those nodes, after at most [2 * size R] iterations
    plus one per distance the frontier had at the call; and control
    returns to main, every search the call set off having ended. *)
Theorem search_terminates (g : gmap NodeId Node) (ds : list Device) (k : nat) :
  graph_closed g →
  ∃ c, run k (initial g ds) = Ok c ∧
    ∀ (d : Device) (R : gset NodeId),
      pc c = Call d →
      (∀ n, reachable g (connected_node d) n → n ∈ R) →
      (∃ j c' placed evicted,
         run j c = Ok c' ∧ pc c' = Done d placed evicted ∧
         j ≤ 2 * size R + length (frontier (probe_of (world c) d)) + 2 ∧
         length (trail c') ≤ size R ∧
         (∀ n, placed = Some n → ∃ N, nodes (world c') !! n = Some N ∧ d ∈ devices N) ∧
         (placed = None → evicted = None ∧
            length (frontier (probe_of (world c') d))
            ≤ distance (probe_of (world c') d))) ∧
      (∃ j c', run j c = Ok c' ∧ pc c' = Main).
Proof.
  intros Hg.
  destruct (run_search_inv g (initial g ds) k Hg (search_inv_initial g ds))
    as (c & Hrun & Hinv).
  exists c. split; [done|]. intros d R Hpc HR. split.
  - assert (run 1 c = Ok (find_node_enter c d)) as Hrun1.
    { cbn. unfold step. by rewrite Hpc. }
    destruct (search_halts g R Hg
                (iterations_left connected_node R (find_node_enter c d) d)
                (find_node_enter c d) d HR)
      as (j & c' & pl & ev & Hrunj & Hj & Hpc' & _ & Hinv' & _ & Hpl & Hex);
      [by apply search_inv_enter|done|lia|].
    exists (1 + j), c', pl, ev. split_and!; [by eapply run_then|done| | |done|done].
    + unfold iterations_left in Hj. cbn in Hj. rewrite probe_of_insert_eq in Hj. cbn in Hj.
      assert (size (R ∖ (∅ : gset NodeId)) ≤ size R) by (apply subseteq_size; set_solver).
      lia.
    + eapply trail_bound; [done| |done]. unfold searching. by rewrite Hpc'.
  - destruct (cascade_halts g Hg _ c d Hinv (or_introl Hpc) (le_n _))
      as (j & c' & Hrunj & Hpc' & _). eauto.
Qed.

(** ** Where the devices are *)

Lemma held_lookup ns ps n N :
  ns !! n = Some N →
  held {| nodes := ns; probes := ps |}
  ≡ₚ devices N ++ held {| nodes := delete n ns; probes := ps |}.
Proof.
  intros HN. unfold held. cbn. by rewrite <- (map_to_list_delete ns n N HN).
Qed.

Lemma held_insert ns ps ps' n N N' :
  ns !! n = Some N →
  held {| nodes := <[n := N']> ns; probes := ps' |}
  ≡ₚ devices N' ++ held {| nodes := delete n ns; probes := ps |}.
Proof.
  intros HN. unfold held. cbn.
  rewrite <- insert_delete_eq, map_to_list_insert by apply lookup_delete_eq. done.
Qed.

Lemma held_unique w d n1 n2 N1 N2 :
  NoDup (held w) → nodes w !! n1 = Some N1 → nodes w !! n2 = Some N2 →
  d ∈ devices N1 → d ∈ devices N2 → n1 = n2.
Proof.
  destruct w as [ns ps]. cbn. intros Hnd H1 H2 Hd1 Hd2.
  destruct (decide (n1 = n2)) as [|Hne]; [done|exfalso].
  rewrite (held_lookup ns ps n1 N1 H1) in Hnd.
  rewrite (held_lookup (delete n1 ns) ps n2 N2) in Hnd by (by rewrite lookup_delete_ne).
  apply NoDup_app in Hnd as (_ & Hdisj & _). apply (Hdisj d Hd1). set_solver.
Qed.

Lemma held_NoDup w n N : NoDup (held w) → nodes w !! n = Some N → NoDup (devices N).
Proof.
  destruct w as [ns ps]. cbn. intros Hnd HN.
  rewrite (held_lookup ns ps n N HN) in Hnd. by apply NoDup_app in Hnd as (? & _).
Qed.

Lemma held_unassigned g ps : unassigned g → held {| nodes := g; probes := ps |} = [].
Proof.
  intros Hu. unfold held. cbn.
  assert (∀ x, x ∈ map_to_list g → devices x.2 = []) as Hall.
  { intros [n N] Hx. apply elem_of_map_to_list in Hx. by apply (Hu n N). }
  induction (map_to_list g) as [|[n N] l IH]; [done|]. cbn.
  pose proof (Hall (n, N) ltac:(left)) as HN. cbn in HN. rewrite HN. cbn.
  apply IH. intros x Hx. apply Hall. by right.
Qed.

(** A step moves devices between the unplaced ones and the collections, or
    drops the device whose search ran out; it never copies one. *)
Lemma step_devices g c c' :
  graph_closed g → search_inv g c → step c = Ok c' →
  unplaced c' ++ held (world c') ≡ₚ unplaced c ++ held (world c) ∨
  ∃ d, d :: unplaced c' ++ held (world c') ≡ₚ unplaced c ++ held (world c).
Proof.
  intros Hg Hinv. unfold step, unplaced. destruct (pc c) as [|d|d|d pl ev] eqn:Hpc.
  - intros [= <-]. left. unfold main_next. destruct (pending c) as [|d rest] eqn:Hpe; cbn.
    + by rewrite Hpc, Hpe.
    + done.
  - intros [= <-]. left. cbn. destruct c as [[ns ps] ?]. done.
  - pose proof Hinv as (Hs & Hp & _).
    destruct (find_node_iter_cases g c d Hg Hs (Hp d))
      as [(_ & ->) | [(_ & _ & ->) | (Hlt & n & N & N' & r & Hn & Hnv & HN & Hadd & ->)]];
      intros [= <-].
    + right. exists d. done.
    + left. cbn. destruct c as [[ns ps] ?]. done.
    + left. destruct c as [[ns ps] pc0 pend clk tr en]. cbn in *.
      rewrite (held_insert ns ps _ n N N' HN), (held_lookup ns ps n N HN).
      destruct (add_device_cases priority N d)
        as [(_ & h & E & Hperm & _) | [(_ & E & _) | (_ & h0 & tl & h' & Hd & Hlt' & E & Hperm & _)]];
        rewrite E in Hadd; simplify_eq; cbn.
      * rewrite Hperm. cbn. by rewrite <- Permutation_middle.
      * unfold Device_eq. by rewrite bool_decide_true.
      * apply Device_lt_true in Hlt'. unfold Device_eq.
        rewrite bool_decide_false by (intros ->; lia). cbn.
        rewrite Hperm, Hd. cbn. rewrite <- !Permutation_middle. apply Permutation_swap.
  - intros [= <-]. left. unfold find_node_leave. by destruct ev.
Qed.

Lemma step_NoDup g c c' :
  graph_closed g → search_inv g c → step c = Ok c' →
  NoDup (unplaced c ++ held (world c)) → NoDup (unplaced c' ++ held (world c')).
Proof.
  intros Hg Hinv Hstep Hnd.
  destruct (step_devices g c c' Hg Hinv Hstep) as [Hperm | [d Hperm]].
  - by rewrite Hperm.
  - rewrite <- Hperm in Hnd. by apply NoDup_cons in Hnd as [_ ?].
Qed.

Lemma run_NoDup g k c c' :
  graph_closed g → search_inv g c → run k c = Ok c' →
  NoDup (unplaced c ++ held (world c)) → NoDup (unplaced c' ++ held (world c')).
Proof.
  intros Hg. revert c. induction k as [|k IH]; intros c Hinv Hrun Hnd.
  { by injection Hrun as <-. }
  destruct (step_search_inv g c Hg Hinv) as (c1 & Hstep & Hinv1).
  cbn in Hrun. rewrite Hstep in Hrun. cbn in Hrun.
  apply (IH c1 Hinv1 Hrun). by apply (step_NoDup g c c1).
Qed.

(** C6. No duplication: at every point of the assignment phase, a device
    sits in the collection of at most one node, once, and a device that is
    still to be placed or is searching sits in none. *)
Theorem device_in_one_node (g : gmap NodeId Node) (ds : list Device) (k : nat) :
  graph_closed g → unassigned g → NoDup ds →
  ∃ c, run k (initial g ds) = Ok c ∧
    (∀ d n1 n2 N1 N2,
       nodes (world c) !! n1 = Some N1 → nodes (world c) !! n2 = Some N2 →
       d ∈ devices N1 → d ∈ devices N2 → n1 = n2) ∧
    (∀ n N, nodes (world c) !! n = Some N → NoDup (devices N)) ∧
    (∀ d n N, d ∈ unplaced c → nodes (world c) !! n = Some N → d ∉ devices N).
Proof.
  intros Hg Hu Hds.
  destruct (run_search_inv g (initial g ds) k Hg (search_inv_initial g ds))
    as (c & Hrun & _).
  exists c. split; [done|].
  assert (NoDup (unplaced c ++ held (world c))) as Hnd.
  { eapply run_NoDup; [done|apply search_inv_initial|done|].
    cbn. rewrite (held_unassigned g ∅ Hu), app_nil_r. done. }
  apply NoDup_app in Hnd as (_ & Hdisj & Hheld). split_and!.
  - intros d n1 n2 N1 N2. by apply held_unique.
  - intros n N. by apply held_NoDup.
  - intros d n N Hd HN Hin. apply (Hdisj d Hd).
    destruct (world c) as [ns ps]. cbn in HN. rewrite (held_lookup ns ps n N HN).
    set_solver.
Qed.

(** ** The state of the probe *)


(** C5, as the code has it.  Throughout every call of [find_node] the nodes
    visited so far are pairwise distinct and are exactly the visited set,
    so no node is visited twice; and the frontier entry for distance
    [j + 1] is the union of the neighbour sets of the nodes visited at
    distance [j] during the call, together with what the entry held when
    the call began: nothing when the call began with [{0: {origin}}], so
    that the entry is then exactly that union. *)
Theorem frontier_growth (g : gmap NodeId Node) (ds : list Device) (k : nat) :
  graph_closed g →
  ∃ c, run k (initial g ds) = Ok c ∧
    ∀ d, searching c = Some d →
      visited (probe_of (world c) d) = list_to_set (trail c).*2 ∧
      NoDup (trail c).*2 ∧
      (∀ j, level (frontier (probe_of (world c) d)) (S j)
            = level (entry c) (S j) ∪ ⋃ (nbrs g <$> tried_at (trail c) j)) ∧
      (entry c = [(0, {[connected_node d]})] →
       ∀ j, level (frontier (probe_of (world c) d)) (S j)
            = ⋃ (nbrs g <$> tried_at (trail c) j)).
Proof.
  intros Hg.
  destruct (run_search_inv g (initial g ds) k Hg (search_inv_initial g ds))
    as (c & Hrun & (_ & _ & Hd)).
  exists c. split; [done|]. intros d Hse.
  destruct (Hd d Hse) as (Hvis & Hnd & _ & _ & Hlev). split_and!; [done..|].
  intros Hen j. rewrite Hlev, Hen. unfold level at 1. cbn. set_solver.
Qed.

End Search.

(** * Further properties *)

(** ** Sampling and the partition of the resources *)

Lemma insert_perm_any {A : Type} (l : list A) i x y :
  l !! i = Some y → y :: <[i := x]> l ≡ₚ x :: l.
Proof.
  revert i. induction l as [|a l IH]; intros [|i] Hi; simplify_eq/=.
  - apply Permutation_swap.
  - etrans; [apply Permutation_swap|].
    etrans; [apply Permutation_skip, (IH _ Hi)|]. apply Permutation_swap.
Qed.

(** Drawing one item from the live part of the pool, the first [S m]
    positions, and moving the last live item into its place leaves the
    other live items in the first [m] positions. *)
Lemma sample_step_perm {A : Type} (pool : list A) m j x y :
  j ≤ m → pool !! j = Some x → pool !! m = Some y →
  x :: take m (<[j := y]> pool) ≡ₚ take (S m) pool.
Proof.
  intros Hj Hx Hy. rewrite (take_S_r pool m y Hy).
  destruct (decide (j = m)) as [->|Hne].
  - rewrite take_insert_ge by done. simplify_eq. apply Permutation_cons_append.
  - rewrite take_insert_lt by lia.
    rewrite (insert_perm_any (take m pool) j y x) by (rewrite lookup_take_lt by lia; done).
    apply Permutation_cons_append.
Qed.

(** The sample is drawn without replacement: it is a sub-multiset of the
    live part of the pool. *)
Lemma sample_loop_sub {A : Type} rnd t (pool : list A) n i k :
  length pool = n → i + k ≤ n →
  ∃ l, sample_loop rnd t pool n i k = Ok l ∧ length l = k ∧ l ⊆+ take (n - i) pool.
Proof.
  revert pool i. induction k as [|k IH]; intros pool i Hn Hik; cbn.
  { exists []. split_and!; [done..|]. apply submseteq_nil_l. }
  assert (randbelow rnd (t + i) (n - i) < n - i) as Hj.
  { unfold randbelow. apply Nat.mod_upper_bound. lia. }
  destruct (list_get_lt pool (randbelow rnd (t + i) (n - i))) as (x & -> & Hx); [lia|].
  destruct (list_get_lt pool (n - i - 1)) as (y & -> & Hy); [lia|]. cbn.
  rewrite list_set_lt by lia. cbn.
  set (j := randbelow rnd (t + i) (n - i)) in *.
  destruct (IH (<[j := y]> pool) (S i)) as (l & -> & Hlen & Hsub).
  { by rewrite length_insert. } { lia. }
  cbn. exists (x :: l). split_and!; [done|by rewrite <- Hlen|].
  replace (n - i) with (S (n - i - 1)) by lia.
  rewrite <- (sample_step_perm pool (n - i - 1) j x y) by (done || lia).
  apply submseteq_skip. by replace (n - i - 1) with (n - S i) by lia.
Qed.

Lemma random_sample_sub {A : Type} rnd t (population : list A) (k : Z) :
  (0 ≤ k ≤ Z.of_nat (length population))%Z →
  ∃ l, random_sample rnd t population k = Ok l ∧ length l = Z.to_nat k ∧ l ⊆+ population.
Proof.
  intros Hk. unfold random_sample. rewrite decide_True by done.
  destruct (sample_loop_sub rnd t population (length population) 0 (Z.to_nat k))
    as (l & Hl & Hlen & Hsub); [done|lia|].
  exists l. split_and!; [done..|]. by rewrite Nat.sub_0_r, firstn_all in Hsub.
Qed.

Lemma random_sample_raises {A : Type} rnd t (population : list A) (k : Z) :
  ¬ (0 ≤ k ≤ Z.of_nat (length population))%Z →
  random_sample rnd t population k = Raise ValueError.
Proof. intros Hk. unfold random_sample. by rewrite decide_False. Qed.

Lemma submseteq_NoDup_sub {A : Type} (l k : list A) : l ⊆+ k → NoDup k → NoDup l.
Proof.
  intros Hsub Hnd. apply submseteq_Permutation in Hsub as [k' Hk'].
  rewrite Hk' in Hnd. by apply NoDup_app in Hnd as (? & _).
Qed.

Lemma range_NoDup a b : NoDup (range a b).
Proof.
  unfold range. apply NoDup_fmap_2_strong; [|apply NoDup_seq].
  intros x y _ _ ?. lia.
Qed.

Lemma elem_of_range a b x : x ∈ range a b ↔ (a ≤ x < b)%Z.
Proof.
  unfold range. rewrite list_elem_of_fmap. split.
  - intros (i & -> & Hi). apply elem_of_seq in Hi. lia.
  - intros Hx. exists (Z.to_nat (x - a)). split; [lia|]. apply elem_of_seq. lia.
Qed.

Lemma insort_perm x l : insort x l ≡ₚ x :: l.
Proof.
  induction l as [|y l IH]; cbn; [done|]. case_decide; [done|].
  rewrite IH. apply Permutation_swap.
Qed.

Lemma sorted_perm l : sorted l ≡ₚ l.
Proof.
  unfold sorted. induction l as [|x l IH]; cbn; [done|].
  by rewrite insort_perm, IH.
Qed.

Lemma insort_chain a x l b :
  chain a l b → (a < x < b)%Z → x ∉ l → chain a (insort x l) b.
Proof.
  revert a. induction l as [|y l IH]; intros a Hc Hx Hnin; cbn in *.
  - split; lia.
  - destruct Hc as [Hay Hc]. apply not_elem_of_cons in Hnin as [Hne Hnin].
    case_decide; cbn.
    + split_and!; [lia|lia|done].
    + split; [done|]. apply IH; [done|lia|done].
Qed.

Lemma sorted_chain a l b :
  (a < b)%Z → NoDup l → (∀ x, x ∈ l → (a < x < b)%Z) → chain a (sorted l) b.
Proof.
  intros Hab. unfold sorted. induction l as [|x l IH]; intros Hnd Hin; cbn; [done|].
  apply NoDup_cons in Hnd as [Hx Hnd]. apply insort_chain.
  - apply IH; [done|]. intros y Hy. apply Hin. by right.
  - apply Hin. by left.
  - fold (sorted l). by rewrite sorted_perm.
Qed.

(** The differences of consecutive dividers, from [a] up to [b]: as many as
    there are dividers plus one, each at least 1, adding up to [b - a]. *)
Lemma chain_differences a (ds : list Z) b :
  chain a ds b →
  let l := (λ ab : Z * Z, ab.1 - ab.2)%Z <$> zip (ds ++ [b]) (a :: ds) in
  length l = S (length ds) ∧ Forall (λ x, 1 ≤ x)%Z l ∧ total l = (b - a)%Z.
Proof.
  revert a. induction ds as [|d ds IH]; intros a Hc; cbn in *.
  - split_and!; [done|constructor; [lia|done]|lia].
  - destruct Hc as [Had Hc]. destruct (IH d Hc) as (Hlen & Hall & Hsum).
    split_and!; [by rewrite Hlen|constructor; [lia|done]|].
    fold (total ((λ ab : Z * Z, (ab.1 - ab.2)%Z) <$> zip (ds ++ [b]) (d :: ds))).
    lia.
Qed.

Lemma get_resources_spec (rnd : nat → nat) (t : nat) (N U : Z) :
  (1 ≤ N ≤ U)%Z →
  ∃ l, get_resources rnd t N U = Ok l ∧
       Z.of_nat (length l) = N ∧ Forall (λ x, 1 ≤ x)%Z l ∧ total l = U.
Proof.
  intros HNU. unfold get_resources. rewrite decide_False by lia.
  unfold constrained_sum_sample_pos.
  destruct (random_sample_sub rnd t (range 1 U) (N - 1)) as (s & -> & Hlen & Hsub).
  { rewrite range_length. lia. }
  cbn. eexists. split; [done|].
  assert (chain 0 (sorted s) U) as Hc.
  { apply sorted_chain; [lia| |].
    - eapply submseteq_NoDup_sub; [done|apply range_NoDup].
    - intros x Hx. eapply elem_of_submseteq in Hx; [|done].
      apply elem_of_range in Hx. lia. }
  destruct (chain_differences 0 (sorted s) U Hc) as (Hl & Hall & Hsum).
  split_and!; [|done|lia].
  rewrite Hl, (Permutation_length (sorted_perm s)), Hlen. lia.
Qed.

(** X1. The partition of the resources: for [1 <= N <= U], and whatever the
    random draws, [get_resources(N, U)] returns [N] integers, each at least
    1, that add up to [U]. *)
Theorem get_resources_partition (rnd : nat → nat) (t : nat) (N U : Z) :
  (1 ≤ N ≤ U)%Z →
  ∃ l, get_resources rnd t N U = Ok l ∧
       Z.of_nat (length l) = N ∧ Forall (λ x, 1 ≤ x)%Z l ∧ total l = U.
Proof. apply get_resources_spec. Qed.

(** X2. [get_resources(N, U)] on any two integers: it returns exactly when
    [1 <= N <= U], and raises [ValueError] otherwise, from its own test
    when [U < N] and from [random.sample] when [N <= 0]. *)
Theorem get_resources_returns_iff (rnd : nat → nat) (t : nat) (N U : Z) :
  ((∃ l, get_resources rnd t N U = Ok l) ↔ (1 ≤ N ≤ U)%Z) ∧
  (¬ (1 ≤ N ≤ U)%Z → get_resources rnd t N U = Raise ValueError).
Proof.
  assert (¬ (1 ≤ N ≤ U)%Z → get_resources rnd t N U = Raise ValueError) as Hraise.
  { intros Hn. unfold get_resources. case_decide; [done|].
    unfold constrained_sum_sample_pos. rewrite random_sample_raises; [done|].
    rewrite range_length. lia. }
  split; [|done]. split.
  - intros [l Hl]. destruct (decide (1 ≤ N ≤ U)%Z) as [|Hn]; [done|].
    rewrite (Hraise Hn) in Hl. discriminate.
  - intros HNU. destruct (random_sample_sub rnd t (range 1 U) (N - 1)) as (s & Hs & _).
    { rewrite range_length. lia. }
    unfold get_resources, constrained_sum_sample_pos.
    rewrite decide_False by lia. rewrite Hs. cbn. eauto.
Qed.

(** X3. [rand_from_set]: on a set that is not empty it returns one of its
    members; on the empty set it raises [ValueError]. *)
Theorem rand_from_set_member (rnd : nat → nat) (t : nat) (rset : gset NodeId) :
  (rset ≠ ∅ → ∃ n, rand_from_set rnd t rset = Ok n ∧ n ∈ rset) ∧
  (rset = ∅ → rand_from_set rnd t rset = Raise ValueError).
Proof.
  split.
  - intros Hne. unfold rand_from_set.
    destruct (random_sample_sub rnd t (elements rset) 1) as (l & -> & Hlen & Hsub).
    { destruct (elements rset) eqn:E; [|cbn; lia].
      by apply elements_empty_inv, leibniz_equiv in E. }
    destruct l as [|x [|? ?]]; try discriminate. cbn. exists x. split; [done|].
    apply elem_of_elements. eapply elem_of_submseteq; [|done]. by left.
  - intros ->. unfold rand_from_set. rewrite random_sample_raises; [done|].
    rewrite elements_empty. cbn. lia.
Qed.

(** ** More on Node.add_device *)

Section MoreNode.

Context (priority : Device → Priority).

Local Abbreviation dle := (Device_le priority).
Local Abbreviation heap_inv := (heap_inv priority).

(** X4. [add_device] neither loses nor invents a device: the device it is
    given and the devices the node held are, up to order, the devices the
    node holds afterwards and the device handed back, if any; and it
    leaves [id], [resources] and [neighbors] alone. *)
Theorem add_device_conserves (n : Node) (d : Device) :
  ∃ n' r, add_device priority n d = Ok (n', r) ∧
    handed_back r ++ devices n' ≡ₚ d :: devices n ∧
    id n' = id n ∧ resources n' = resources n ∧ neighbors n' = neighbors n.
Proof.
  destruct (add_device_cases priority n d)
    as [(_ & h & E & Hperm & _) | [(_ & E & _) | (_ & h0 & tl & h' & Hd & _ & E & Hperm & _)]];
    rewrite E; eexists _, _; (split; [done|]); cbn.
  - by rewrite Hperm.
  - done.
  - split; [|done]. rewrite Hperm, Hd. apply Permutation_swap.
Qed.

Lemma rejected_no_weaker (N : Node) d :
  heap_inv (devices N) →
  (∀ h0, devices N !! 0 = Some h0 → Device_lt priority h0 d = false) →
  ∀ y, y ∈ devices N → dle d y.
Proof.
  intros Hh Hroot y Hy. destruct (devices N) as [|h0 tl] eqn:Hd.
  { by apply elem_of_nil in Hy. }
  specialize (Hroot h0 eq_refl). apply Device_lt_false in Hroot.
  eapply dle_trans; [exact Hroot|]. by apply (heap_inv_root priority (h0 :: tl) h0 y).
Qed.

(** X5. A full node keeps the strongest: on a full node whose collection
    is in heap order, [add_device] hands back a weakest among the devices
    held and the one given, so no device the node holds afterwards is
    weaker than the one handed back, and the collection is in heap order
    again. *)
Theorem add_device_keeps_strongest (n : Node) (d : Device) :
  heap_inv (devices n) → (resources n ≤ Z.of_nat (length (devices n)))%Z →
  ∃ n' e, add_device priority n d = Ok (n', Some e) ∧
    e ∈ d :: devices n ∧
    (∀ y, y ∈ d :: devices n → dle e y) ∧
    (∀ y, y ∈ devices n' → dle e y) ∧
    heap_inv (devices n').
Proof.
  intros Hh Hfull. destruct (add_device_cases priority n d)
    as [(Hlt & _) | [(_ & E & Hge) | (_ & h0 & tl & h' & Hd & Hlt & E & Hperm & Hinv)]]; [lia| |].
  - exists n, d. pose proof (rejected_no_weaker n d Hh Hge) as Hall.
    split_and!; [done|by left| |done|done].
    intros y [->|Hy]%elem_of_cons; [apply dle_refl|by apply Hall].
  - assert (∀ y, y ∈ d :: devices n → dle h0 y) as Hall.
    { intros y [->|Hy]%elem_of_cons.
      - apply Device_lt_true in Hlt. unfold Device_le. lia.
      - apply (heap_inv_root priority (devices n) h0 y Hh); [by rewrite Hd|done]. }
    exists (set_devices n h'), h0. split_and!; [done| |done| |by apply Hinv].
    + right. rewrite Hd. by left.
    + cbn. intros y Hy. apply Hall. rewrite Hperm in Hy.
      apply elem_of_cons in Hy as [->|Hy]; [by left|]. right. rewrite Hd. by right.
Qed.


End MoreNode.

(** ** More on the assignment phase *)

Section MorePhase.

Context (priority : Device → Priority) (connected_node : Device → NodeId) (rnd : nat → nat).

Local Abbreviation probe_of := (probe_of connected_node).
Local Abbreviation step := (step priority connected_node rnd).
Local Abbreviation run := (run priority connected_node rnd).
Local Abbreviation find_node_enter := (find_node_enter connected_node).
Local Abbreviation after_try := (after_try connected_node).
Local Abbreviation after_advance := (after_advance connected_node).
Local Abbreviation graph_closed := (graph_closed connected_node).
Local Abbreviation search_inv := (search_inv connected_node).
Local Abbreviation exhaust_inv := (exhaust_inv priority connected_node).
Local Abbreviation rings_inv := (rings_inv connected_node).
Local Abbreviation rejects := (rejects priority).

(** The ways a step can go, under the invariant of the search. *)
Lemma step_cases g c c' :
  graph_closed g → search_inv g c → step c = Ok c' →
  (pc c = Main ∧ c' = main_next c) ∨
  (∃ d, pc c = Call d ∧ c' = find_node_enter c d) ∨
  (∃ d, pc c = Loop d ∧
     length (frontier (probe_of (world c) d)) ≤ distance (probe_of (world c) d) ∧
     c' = set_pc c (Done d None None)) ∨
  (∃ d, pc c = Loop d ∧
     distance (probe_of (world c) d) < length (frontier (probe_of (world c) d)) ∧
     level (frontier (probe_of (world c) d)) (distance (probe_of (world c) d))
       ⊆ visited (probe_of (world c) d) ∧
     c' = after_advance c d) ∨
  (∃ d n N N' r, pc c = Loop d ∧
     distance (probe_of (world c) d) < length (frontier (probe_of (world c) d)) ∧
     n ∈ level (frontier (probe_of (world c) d)) (distance (probe_of (world c) d)) ∧
     (n ∉ visited (probe_of (world c) d)) ∧
     nodes (world c) !! n = Some N ∧ add_device priority N d = Ok (N', r) ∧
     c' = after_try c d n N N' r) ∨
  (∃ d pl ev, pc c = Done d pl ev ∧ c' = find_node_leave c ev).
Proof.
  intros Hg Hinv. unfold step. destruct (pc c) as [|d|d|d pl ev] eqn:Hpc.
  - intros [= <-]. by left.
  - intros [= <-]. right; left. by exists d.
  - pose proof Hinv as (Hs & Hp & _).
    destruct (find_node_iter_cases priority connected_node rnd g c d Hg Hs (Hp d))
      as [(Hge & ->) | [(Hlt & Hsub & ->) | (Hlt & n & N & N' & r & Hn & Hnv & HN & Hadd & ->)]];
      intros [= <-].
    + right; right; left. by exists d.
    + right; right; right; left. by exists d.
    + right; right; right; right; left. by exists d, n, N, N', r.
  - intros [= <-]. right; right; right; right; right. by exists d, pl, ev.
Qed.

(** An invariant that the steps keep holds all along a run. *)
Lemma run_invariant (P : Config → Prop) g k c :
  graph_closed g →
  (∀ c1 c2, search_inv g c1 → P c1 → step c1 = Ok c2 → P c2) →
  search_inv g c → P c →
  ∃ c', run k c = Ok c' ∧ search_inv g c' ∧ P c'.
Proof.
  intros Hg Hstep. revert c. induction k as [|k IH]; intros c Hinv HP; [by exists c|].
  destruct (step_search_inv priority connected_node rnd g c Hg Hinv) as (c1 & Hs1 & Hinv1).
  cbn. rewrite Hs1. cbn. apply IH; [done|]. by apply (Hstep c c1).
Qed.

Lemma run_unique k c c1 c2 : run k c = Ok c1 → run k c = Ok c2 → c1 = c2.
Proof. intros H1 H2. rewrite H1 in H2. by injection H2. Qed.

(** *** The rings of the frontier *)

Lemma rings_step g c c' :
  graph_closed g → search_inv g c → rings_inv g c → step c = Ok c' → rings_inv g c'.
Proof.
  intros Hg Hinv Hr Hstep.
  destruct (step_cases g c c' Hg Hinv Hstep)
    as [(Hpc & ->) | [(d & Hpc & ->) | [(d & Hpc & _ & ->) | [(d & Hpc & _ & _ & ->) |
        [(d & n & N & N' & r & Hpc & Hlt & Hn & Hnv & HN & Hadd & ->) | (d & pl & ev & Hpc & ->)]]]]].
  - unfold main_next. by destruct (pending c).
  - intros d' k n. cbn. destruct (decide (d' = d)) as [->|Hne].
    + rewrite probe_of_insert_eq. cbn. apply Hr.
    + rewrite (probe_of_insert_ne _ _ (nodes (world c))) by done.
      destruct c as [[ns ps] ?]; apply Hr.
  - done.
  - intros d' k n. cbn. destruct (decide (d' = d)) as [->|Hne].
    + rewrite probe_of_insert_eq. cbn. apply Hr.
    + rewrite (probe_of_insert_ne _ _ (nodes (world c))) by done.
      destruct c as [[ns ps] ?]; apply Hr.
  - destruct Hinv as (Hs & _).
    destruct (same_graph_lookup _ _ _ _ Hs HN) as (N0 & HN0 & Hnb).
    intros d' k m. cbn. destruct (decide (d' = d)) as [->|Hne].
    + rewrite probe_of_insert_eq. cbn.
      destruct (decide (k = distance (probe_of (world c) d) + 1)) as [->|Hk].
      * rewrite level_update_eq. intros [Hm|Hm]%elem_of_union; [by apply Hr|].
        rewrite Nat.add_1_r. eapply walk_edge; [by apply Hr|done|].
        unfold get_neighbors in Hm. by rewrite Hnb.
      * rewrite level_update_ne by done. apply Hr.
    + rewrite (probe_of_insert_ne _ _ (nodes (world c))) by done.
      destruct c as [[ns ps] ?]; apply Hr.
  - unfold find_node_leave. by destruct ev.
Qed.

Lemma rings_initial g ds : rings_inv g (initial g ds).
Proof.
  intros d k n. unfold probe_of. cbn. rewrite lookup_empty. cbn.
  unfold level. cbn. case_decide as Hk; [|by intros ?%elem_of_empty].
  subst k. intros ->%elem_of_singleton. constructor.
Qed.

(** X7. Rings: at every point of the assignment phase, the frontier entry
    of any probe at distance [j] holds only nodes in which a walk of
    exactly [j] edges from the origin of the device ends, also after the
    restarts that keep the entries of earlier searches. *)
Theorem frontier_rings (g : gmap NodeId Node) (ds : list Device) (k : nat) :
  graph_closed g →
  ∃ c, run k (initial g ds) = Ok c ∧
    ∀ d j n, n ∈ level (frontier (probe_of (world c) d)) j →
             walk g (connected_node d) j n.
Proof.
  intros Hg.
  destruct (run_invariant (rings_inv g) g k (initial g ds) Hg) as (c & Hrun & _ & Hr).
  - intros c1 c2 Hinv HP Hstep. by apply (rings_step g c1 c2).
  - apply search_inv_initial.
  - apply rings_initial.
  - by exists c.
Qed.

(** *** Searches that run out *)

Lemma add_device_handed_back N d N' :
  add_device priority N d = Ok (N', Some d) →
  N' = N ∧ (resources N ≤ Z.of_nat (length (devices N)))%Z ∧
  ∀ h0, devices N !! 0 = Some h0 → Device_lt priority h0 d = false.
Proof.
  intros Hadd. destruct (add_device_cases priority N d)
    as [(_ & h & E & _) | [(Hfull & E & Hge) | (_ & h0 & tl & h' & _ & Hlt & E & _)]];
    rewrite E in Hadd; simplify_eq; [done|].
  apply Device_lt_true in Hlt. lia.
Qed.

Lemma unsuccessful_after_try c d n N N' r d' :
  unsuccessful (after_try c d n N N' r) = Some d' → d' = d ∧ r = Some d.
Proof.
  unfold unsuccessful. cbn. destruct r as [e|]; [|done].
  unfold Device_eq. case_bool_decide as He; cbn; [|done]. subst e. by intros [= <-].
Qed.

Lemma exhaust_step g c c' :
  graph_closed g → search_inv g c → exhaust_inv c → step c = Ok c' → exhaust_inv c'.
Proof.
  intros Hg Hinv [Hheap Hex] Hstep.
  destruct (step_cases g c c' Hg Hinv Hstep)
    as [(Hpc & ->) | [(d & Hpc & ->) | [(d & Hpc & Hge & ->) | [(d & Hpc & Hlt & Hsub & ->) |
        [(d & n & N & N' & r & Hpc & Hlt & Hn & Hnv & HN & Hadd & ->) | (d & pl & ev & Hpc & ->)]]]]].
  - split; [unfold main_next; by destruct (pending c)|].
    intros d. unfold unsuccessful, main_next.
    destruct (pending c); [by rewrite Hpc|done].
  - split; [done|]. intros d' [= <-]. cbn. rewrite probe_of_insert_eq. cbn.
    split_and!; [intros; lia|by intros k n ?%elem_of_nil|done].
  - split; [done|]. intros d' [= <-]. cbn.
    destruct (Hex d) as (Hpass & Hrej & _); [unfold unsuccessful; by rewrite Hpc|].
    by split_and!.
  - split; [done|]. intros d' [= <-]. cbn. rewrite probe_of_insert_eq. cbn.
    destruct (Hex d) as (Hpass & Hrej & _); [unfold unsuccessful; by rewrite Hpc|].
    split_and!; [|done|done].
    intros j Hj. destruct (decide (j = distance (probe_of (world c) d))) as [->|Hne]; [done|].
    apply Hpass. lia.
  - split.
    { intros m M. cbn. destruct (decide (m = n)) as [->|Hne].
      - rewrite lookup_insert_eq. intros [= <-].
        eapply add_device_heap_inv; [done|]. by eapply Hheap.
      - rewrite lookup_insert_ne by done. apply Hheap. }
    intros d' Hun. apply unsuccessful_after_try in Hun as [-> ->].
    apply add_device_handed_back in Hadd as (-> & Hfull & Hroot).
    destruct (Hex d) as (Hpass & Hrej & _); [unfold unsuccessful; by rewrite Hpc|].
    cbn. rewrite probe_of_insert_eq. cbn. unfold Device_eq. rewrite bool_decide_true by done.
    cbn. split_and!; [| |done].
    + intros j Hj. rewrite level_update_ne by lia.
      etrans; [by apply Hpass|]. set_solver.
    + intros k m [[= -> ->]|Hin]%elem_of_cons.
      * exists N. rewrite lookup_insert_eq. split; [done|]. split; [done|].
        apply rejected_no_weaker; [by eapply Hheap|done].
      * destruct (Hrej k m Hin) as (M & HM & HMr). exists M. split; [|done].
        destruct (decide (m = n)) as [->|Hne]; [|by rewrite lookup_insert_ne].
        rewrite lookup_insert_eq. congruence.
  - split; [unfold find_node_leave; by destruct ev|].
    intros d'. unfold unsuccessful, find_node_leave. by destruct ev.
Qed.

Lemma exhaust_initial g ds :
  (∀ n N, g !! n = Some N → heap_inv priority (devices N)) →
  exhaust_inv (initial g ds).
Proof. intros Hh. split; [done|]. by intros d. Qed.

Lemma elem_of_tried_at tr k n : n ∈ tried_at tr k ↔ (k, n) ∈ tr.
Proof.
  unfold tried_at. rewrite list_elem_of_fmap. split.
  - intros ([k' n'] & -> & [Hk Hin]%list_elem_of_filter). cbn in *. by subst.
  - intros Hin. exists (k, n). split; [done|]. by apply list_elem_of_filter.
Qed.

(** When the loop has run out, the search has tried every node its origin
    can reach. *)
Lemma exhausted_all_tried g c d n :
  search_inv g c → exhaust_inv c → pc c = Done d None None →
  reachable g (connected_node d) n → ∃ k, (k, n) ∈ trail c.
Proof.
  intros (Hs & Hp & Hd) [_ Hex] Hpc Hreach.
  destruct (Hd d) as (Hvis & _ & _ & Hkey & Hlev); [unfold searching; by rewrite Hpc|].
  destruct (Hex d) as (Hpass & _ & Hpast); [unfold unsuccessful; by rewrite Hpc|].
  specialize (Hpast Hpc). destruct (Hp d) as (Hkeys & H0 & _).
  pose proof (probe_ok_length _ _ _ (Hp d)) as Hlen.
  assert (n ∈ visited (probe_of (world c) d)) as Hn; cycle 1.
  { rewrite Hvis in Hn. apply elem_of_list_to_set, list_elem_of_fmap in Hn
      as ([k n'] & -> & Hin). by exists k. }
  induction Hreach as [|n N m _ IH HN Hm].
  - apply (Hpass 0); [lia|]. unfold level. rewrite H0. by apply elem_of_singleton.
  - rewrite Hvis in IH. apply elem_of_list_to_set, list_elem_of_fmap in IH
      as ([k n'] & -> & Hin). cbn in *.
    pose proof (proj1 (dict_get_Ok_keys _ _) (Hkey k n' Hin)) as Hs'.
    rewrite Hkeys in Hs'. apply elem_of_seq in Hs'. apply (Hpass (S k)); [lia|]. rewrite Hlev.
    apply elem_of_union_r, elem_of_union_list. exists (nbrs g n'). split.
    + apply list_elem_of_fmap. exists n'. split; [done|]. by apply elem_of_tried_at.
    + unfold nbrs. by rewrite HN.
Qed.

(** X8. A search gives up only after asking everywhere: when [find_node]
    leaves its loop without having placed the device, every node that the
    origin of the device can reach has been tried, is full and holds no
    device weaker than this one.  (The collections start in heap order,
    as empty ones are.) *)
Theorem unplaced_only_if_all_reject (g : gmap NodeId Node) (ds : list Device) (k : nat) :
  graph_closed g →
  (∀ n N, g !! n = Some N → heap_inv priority (devices N)) →
  ∃ c, run k (initial g ds) = Ok c ∧
    ∀ d, pc c = Done d None None →
      ∀ n, reachable g (connected_node d) n →
        (∃ j, (j, n) ∈ trail c) ∧
        ∃ N, nodes (world c) !! n = Some N ∧ rejects N d.
Proof.
  intros Hg Hh.
  destruct (run_invariant exhaust_inv g k (initial g ds) Hg) as (c & Hrun & Hinv & Hex).
  - intros c1 c2 Hinv HP Hstep. by apply (exhaust_step g c1 c2).
  - apply search_inv_initial.
  - by apply exhaust_initial.
  - exists c. split; [done|]. intros d Hpc n Hreach.
    destruct (exhausted_all_tried g c d n Hinv Hex Hpc Hreach) as [j Hin].
    split; [by exists j|]. destruct Hex as [_ Hex].
    destruct (Hex d) as (_ & Hrej & _); [unfold unsuccessful; by rewrite Hpc|].
    by apply (Hrej j n).
Qed.

(** *** Capacities *)

Lemma capacity_step g c c' :
  graph_closed g → search_inv g c → capacity_inv g c → step c = Ok c' → capacity_inv g c'.
Proof.
  intros Hg Hinv Hc Hstep.
  destruct (step_cases g c c' Hg Hinv Hstep)
    as [(Hpc & ->) | [(d & Hpc & ->) | [(d & Hpc & _ & ->) | [(d & Hpc & _ & _ & ->) |
        [(d & n & N & N' & r & Hpc & Hlt & Hn & Hnv & HN & Hadd & ->) | (d & pl & ev & Hpc & ->)]]]]];
    try done.
  - unfold main_next. by destruct (pending c).
  - intros m M. cbn. destruct (decide (m = n)) as [->|Hne].
    + rewrite lookup_insert_eq. intros [= <-]. destruct (Hc n N HN) as [Hlen Hres].
      pose proof (add_device_static priority N d N' r Hadd) as (_ & Hr & _).
      split; [by eapply add_device_length|]. by rewrite Hr.
    + rewrite lookup_insert_ne by done. apply Hc.
  - unfold find_node_leave. by destruct ev.
Qed.

(** X9. Capacity and heap order all along the assignment phase: when the
    phase starts with every collection in heap order and within the
    capacity of its node, as empty collections on nodes of non-negative
    capacity are, then at every later point every node holds at most
    [resources] devices, in heap order, and [resources] is what it was
    at the start. *)
Theorem phase_keeps_capacity (g : gmap NodeId Node) (ds : list Device) (k : nat) :
  graph_closed g →
  (∀ n N, g !! n = Some N →
     heap_inv priority (devices N) ∧ (Z.of_nat (length (devices N)) ≤ resources N)%Z) →
  ∃ c, run k (initial g ds) = Ok c ∧
    ∀ n N, nodes (world c) !! n = Some N →
      heap_inv priority (devices N) ∧
      (Z.of_nat (length (devices N)) ≤ resources N)%Z ∧
      resources <$> g !! n = Some (resources N).
Proof.
  intros Hg H0.
  destruct (run_invariant (λ c, exhaust_inv c ∧ capacity_inv g c) g k (initial g ds) Hg)
    as (c & Hrun & _ & [Hheap _] & Hcap).
  - intros c1 c2 Hinv [HP1 HP2] Hstep.
    split; [by apply (exhaust_step g c1 c2)|by apply (capacity_step g c1 c2)].
  - apply search_inv_initial.
  - split; [apply exhaust_initial; intros n N HN; by apply (H0 n N)|].
    intros n N HN. cbn in HN. split; [by apply (H0 n N)|]. by rewrite HN.
  - exists c. split; [done|]. intros n N HN.
    destruct (Hcap n N HN). split_and!; [by eapply Hheap|done..].
Qed.

(** *** Where the devices go *)

Lemma step_devices_exact g c c' :
  graph_closed g → search_inv g c → step c = Ok c' →
  given_up c' ++ unplaced c' ++ held (world c')
    ≡ₚ given_up c ++ unplaced c ++ held (world c) ∨
  ∃ d, pc c = Done d None None ∧
       d :: given_up c' ++ unplaced c' ++ held (world c')
         ≡ₚ given_up c ++ unplaced c ++ held (world c).
Proof.
  intros Hg Hinv Hstep.
  destruct (step_cases g c c' Hg Hinv Hstep)
    as [(Hpc & ->) | [(d & Hpc & ->) | [(d & Hpc & _ & ->) | [(d & Hpc & _ & _ & ->) |
        [(d & n & N & N' & r & Hpc & Hlt & Hn & Hnv & HN & Hadd & ->) | (d & pl & ev & Hpc & ->)]]]]];
    unfold given_up, unplaced.
  - left. unfold main_next. destruct (pending c) as [|d rest] eqn:Hpe; cbn.
    + by rewrite Hpc, Hpe.
    + by rewrite Hpc.
  - left. rewrite Hpc. cbn. destruct c as [[ns ps] ?]. done.
  - left. rewrite Hpc. by cbn.
  - left. rewrite Hpc. cbn. destruct c as [[ns ps] ?]. done.
  - left. rewrite Hpc. destruct c as [[ns ps] pc0 pend clk tr en]. cbn in *.
    rewrite (held_insert ns ps _ n N N' HN), (held_lookup ns ps n N HN).
    destruct (add_device_cases priority N d)
      as [(_ & h & E & Hperm & _) | [(_ & E & _) | (_ & h0 & tl & h' & Hd & Hlt' & E & Hperm & _)]];
      rewrite E in Hadd; simplify_eq; cbn.
    + rewrite Hperm. cbn. by rewrite <- Permutation_middle.
    + unfold Device_eq. by rewrite bool_decide_true.
    + apply Device_lt_true in Hlt'. unfold Device_eq.
      rewrite bool_decide_false by (intros ->; lia). cbn.
      rewrite Hperm, Hd. cbn. rewrite <- !Permutation_middle. apply Permutation_swap.
  - rewrite Hpc. unfold find_node_leave. destruct ev as [e|]; cbn.
    + left. by destruct pl.
    + destruct pl as [n|]; [by left|]. right. by exists d.
Qed.

Lemma devices_step g ds c c' :
  graph_closed g → search_inv g c → step c = Ok c' →
  given_up c ++ unplaced c ++ held (world c) ⊆+ ds →
  given_up c' ++ unplaced c' ++ held (world c') ⊆+ ds.
Proof.
  intros Hg Hinv Hstep Hsub.
  destruct (step_devices_exact g c c' Hg Hinv Hstep) as [Hperm | (d & _ & Hperm)].
  - by rewrite Hperm.
  - rewrite <- Hperm in Hsub. etrans; [|exact Hsub]. by apply submseteq_cons.
Qed.

(** X10. Devices are neither invented nor copied: starting with every
    collection empty, at every point of the assignment phase the devices
    in the collections and the devices yet to be placed form, up to order,
    a part of the devices main had, each with no more copies than main
    had. *)
Theorem phase_conserves_devices (g : gmap NodeId Node) (ds : list Device) (k : nat) :
  graph_closed g → unassigned g →
  ∃ c, run k (initial g ds) = Ok c ∧ unplaced c ++ held (world c) ⊆+ ds.
Proof.
  intros Hg Hu.
  destruct (run_invariant (λ c, given_up c ++ unplaced c ++ held (world c) ⊆+ ds)
              g k (initial g ds) Hg) as (c & Hrun & _ & Hsub).
  - intros c1 c2 Hinv HP Hstep. by apply (devices_step g ds c1 c2).
  - apply search_inv_initial.
  - cbn. by rewrite (held_unassigned g ∅ Hu), app_nil_r.
  - exists c. split; [done|]. etrans; [|exact Hsub]. apply submseteq_inserts_l. done.
Qed.

(** *** Enough room for everyone *)

Lemma total_perm (l l' : list Z) : l ≡ₚ l' → total l = total l'.
Proof. unfold total. induction 1; cbn; lia. Qed.

Lemma capacity_insert (ns : gmap NodeId Node) n N N' :
  ns !! n = Some N → resources N' = resources N →
  capacity (<[n := N']> ns) = capacity ns.
Proof.
  intros HN Hr. unfold capacity.
  rewrite <- (total_perm _ _ (fmap_Permutation _ _ _
    (fmap_Permutation snd _ _ (map_to_list_delete ns n N HN)))).
  rewrite <- insert_delete_eq.
  rewrite (total_perm _ _ (fmap_Permutation _ _ _
    (fmap_Permutation snd _ _ (map_to_list_insert (delete n ns) n N' (lookup_delete_eq ns n))))).
  cbn. by rewrite Hr.
Qed.

Lemma capacity_step_sum g c c' :
  graph_closed g → search_inv g c → step c = Ok c' →
  capacity (nodes (world c')) = capacity (nodes (world c)).
Proof.
  intros Hg Hinv Hstep.
  destruct (step_cases g c c' Hg Hinv Hstep)
    as [(Hpc & ->) | [(d & Hpc & ->) | [(d & Hpc & _ & ->) | [(d & Hpc & _ & _ & ->) |
        [(d & n & N & N' & r & Hpc & Hlt & Hn & Hnv & HN & Hadd & ->) | (d & pl & ev & Hpc & ->)]]]]];
    try done.
  - unfold main_next. by destruct (pending c).
  - cbn. apply (capacity_insert _ n N N' HN).
    by pose proof (add_device_static priority N d N' r Hadd) as (_ & Hr & _).
  - unfold find_node_leave. by destruct ev.
Qed.

(** When every node is full, the collections hold at least as many devices
    as the capacities add up to. *)
Lemma full_capacity (w : World) :
  (∀ n N, nodes w !! n = Some N → (resources N ≤ Z.of_nat (length (devices N)))%Z) →
  (capacity (nodes w) ≤ Z.of_nat (length (held w)))%Z.
Proof.
  intros Hfull. unfold capacity, held.
  assert (∀ x, x ∈ map_to_list (nodes w) →
            (resources x.2 ≤ Z.of_nat (length (devices x.2)))%Z) as Hall.
  { intros [n N] Hx. apply elem_of_map_to_list in Hx. by apply (Hfull n N). }
  induction (map_to_list (nodes w)) as [|[n N] l IH]; [done|]. cbn.
  pose proof (Hall (n, N) ltac:(left)) as HN. cbn in HN.
  assert (total (resources <$> l.*2) ≤ Z.of_nat (length (mjoin (devices <$> l.*2))))%Z
    as Hl.
  { apply IH. intros x Hx. apply Hall. by right. }
  unfold total in Hl. rewrite length_app, Nat2Z.inj_add.
  apply Z.add_le_mono; [exact HN|exact Hl].
Qed.

(** With the whole graph within reach and as much capacity as devices, no
    search runs out. *)
Lemma never_gives_up g ds c :
  (∀ d n, n ∈ dom g → reachable g (connected_node d) n) →
  capacity g = Z.of_nat (length ds) →
  search_inv g c → exhaust_inv c →
  capacity (nodes (world c)) = capacity g →
  given_up c ++ unplaced c ++ held (world c) ⊆+ ds →
  given_up c = [].
Proof.
  intros Hconn Hcap Hinv Hex Hsum Hsub. unfold given_up in *.
  destruct (pc c) as [| | |d [n|] [e|]] eqn:Hpc; try done. exfalso.
  assert (capacity (nodes (world c)) ≤ Z.of_nat (length (held (world c))))%Z as Hfull.
  { apply full_capacity. intros n N HN.
    assert (n ∈ dom g) as Hdom.
    { destruct Hinv as (Hs & _).
      destruct (same_graph_lookup _ _ _ _ Hs HN) as (N0 & HN0 & _).
      apply elem_of_dom. eauto. }
    destruct (exhausted_all_tried g c d n Hinv Hex Hpc (Hconn d n Hdom)) as [k Hin].
    destruct Hex as [_ Hex].
    destruct (Hex d) as (_ & Hrej & _); [unfold unsuccessful; by rewrite Hpc|].
    destruct (Hrej k n Hin) as (N1 & HN1 & Hfull & _). by simplify_eq. }
  apply submseteq_length in Hsub. rewrite !length_app in Hsub. cbn in Hsub. lia.
Qed.

(** The invariants of the phase, put together for a graph with room for
    every device. *)
Lemma placement (g : gmap NodeId Node) (ds : list Device) :
  graph_closed g → unassigned g →
  (∀ d n, n ∈ dom g → reachable g (connected_node d) n) →
  capacity g = Z.of_nat (length ds) →
  (∀ k, ∃ c, run k (initial g ds) = Ok c ∧
     (∀ d, pc c ≠ Done d None None) ∧ unplaced c ++ held (world c) ≡ₚ ds) ∧
  (∃ k c, run k (initial g ds) = Ok c ∧ pc c = Main ∧ pending c = [] ∧
     held (world c) ≡ₚ ds).
Proof.
  intros Hg Hu Hconn Hcap.
  set (P := λ c : Config,
         exhaust_inv c ∧ capacity (nodes (world c)) = capacity g ∧
         given_up c ++ unplaced c ++ held (world c) ⊆+ ds ∧
         unplaced c ++ held (world c) ≡ₚ ds).
  assert (∀ k, ∃ c, run k (initial g ds) = Ok c ∧ search_inv g c ∧ P c) as Hall.
  { intros k. apply run_invariant; [done| |apply search_inv_initial|].
    - intros c1 c2 Hinv (Hex & Hsum & Hsub & Hperm) Hstep.
      assert (exhaust_inv c2) as Hex2 by (by apply (exhaust_step g c1 c2)).
      assert (capacity (nodes (world c2)) = capacity g) as Hsum2.
      { by rewrite (capacity_step_sum g c1 c2). }
      assert (given_up c2 ++ unplaced c2 ++ held (world c2) ⊆+ ds) as Hsub2.
      { by apply (devices_step g ds c1 c2). }
      destruct (step_search_inv priority connected_node rnd g c1 Hg Hinv)
        as (c2' & Hs2 & Hinv2).
      rewrite Hstep in Hs2. injection Hs2 as <-.
      pose proof (never_gives_up g ds c1 Hconn Hcap Hinv Hex Hsum Hsub) as Hno1.
      pose proof (never_gives_up g ds c2 Hconn Hcap Hinv2 Hex2 Hsum2 Hsub2) as Hno2.
      split_and!; [done..|].
      destruct (step_devices_exact g c1 c2 Hg Hinv Hstep) as [Hp | (d & Hpc & _)].
      + rewrite Hno1, Hno2 in Hp. cbn in Hp. by rewrite Hp.
      + unfold given_up in Hno1. by rewrite Hpc in Hno1.
    - split_and!; [apply exhaust_initial|done|..].
      + intros n N HN. rewrite (Hu n N HN). apply heap_inv_nil.
      + cbn. by rewrite (held_unassigned g ∅ Hu), app_nil_r.
      + cbn. by rewrite (held_unassigned g ∅ Hu), app_nil_r. }
  split.
  - intros k. destruct (Hall k) as (c & Hrun & Hinv & Hex & Hsum & Hsub & Hperm).
    exists c. split_and!; [done| |done].
    intros d Hpc.
    pose proof (never_gives_up g ds c Hconn Hcap Hinv Hex Hsum Hsub) as Hno.
    unfold given_up in Hno. by rewrite Hpc in Hno.
  - destruct (main_halts priority connected_node rnd g Hg (initial g ds))
      as (k & c & Hrun & Hpc & Hpend & _); [apply search_inv_initial|done|].
    destruct (Hall k) as (c2 & Hrun2 & _ & _ & _ & _ & Hperm).
    rewrite (run_unique k _ _ _ Hrun Hrun2) in *.
    exists k, c2. split_and!; [done..|].
    unfold unplaced in Hperm. by rewrite Hpc, Hpend in Hperm.
Qed.

(** X11. Enough room for everyone: when every node is within reach of
    every origin and the capacities add up to the number of devices, which
    is how main sets the phase up, no search ever runs out; at every
    point the devices in the collections and those yet to be placed are,
    up to order, the devices main had; and the phase ends with every
    device in a collection. *)
Theorem every_device_is_placed (g : gmap NodeId Node) (ds : list Device) :
  graph_closed g → unassigned g →
  (∀ d n, n ∈ dom g → reachable g (connected_node d) n) →
  capacity g = Z.of_nat (length ds) →
  (∀ k, ∃ c, run k (initial g ds) = Ok c ∧
     (∀ d, pc c ≠ Done d None None) ∧ unplaced c ++ held (world c) ≡ₚ ds) ∧
  (∃ k c, run k (initial g ds) = Ok c ∧ pc c = Main ∧ pending c = [] ∧
     held (world c) ≡ₚ ds).
Proof. apply placement. Qed.

(** X12. The assignment phase ends: on a graph whose edges stay inside it,
    main reaches the end of its loop over the devices, with no call
    pending and nothing raised, and stays there. *)
Theorem assignment_phase_ends (g : gmap NodeId Node) (ds : list Device) :
  graph_closed g →
  ∃ k c, run k (initial g ds) = Ok c ∧ pc c = Main ∧ pending c = [] ∧
         ∀ j, run (k + j) (initial g ds) = Ok c.
Proof.
  intros Hg.
  destruct (main_halts priority connected_node rnd g Hg (initial g ds))
    as (k & c & Hrun & Hpc & Hpend & _); [apply search_inv_initial|done|].
  exists k, c. split_and!; [done..|]. intros j.
  rewrite run_add, Hrun. cbn.
  induction j as [|j IH]; [done|]. cbn. unfold step, main_next. by rewrite Hpc, Hpend.
Qed.

End MorePhase.

(** ** The graph main builds *)

Lemma nbrs_lookup g n N : g !! n = Some N → nbrs g n = neighbors N.
Proof. intros HN. unfold nbrs. by rewrite HN. Qed.

Lemma nbrs_outside g n : g !! n = None → nbrs g n = ∅.
Proof. intros HN. unfold nbrs. by rewrite HN. Qed.

Lemma reachable_nbrs g o n m : reachable g o n → m ∈ nbrs g n → reachable g o m.
Proof.
  intros Hr Hm. destruct (g !! n) as [N|] eqn:HN.
  - rewrite (nbrs_lookup g n N HN) in Hm. by eapply reachable_edge.
  - rewrite (nbrs_outside g n HN) in Hm. set_solver.
Qed.

Lemma reachable_mono g g' o n :
  (∀ x, nbrs g x ⊆ nbrs g' x) → reachable g o n → reachable g' o n.
Proof.
  intros Hsub. induction 1 as [|n N m _ IH HN Hm]; [constructor|].
  apply (reachable_nbrs g' o n m IH). apply Hsub. by rewrite (nbrs_lookup g n N HN).
Qed.

Lemma reachable_trans g a b c : reachable g a b → reachable g b c → reachable g a c.
Proof. intros Hab. induction 1 as [|n N m _ IH HN Hm]; [done|]. by eapply reachable_edge. Qed.

Lemma reachable_sym g a b : undirected g → reachable g a b → reachable g b a.
Proof.
  intros Hu. induction 1 as [|n N m _ IH HN Hm]; [constructor|].
  apply (reachable_trans g m n a); [|done].
  apply (reachable_nbrs g m m n); [constructor|].
  apply Hu. by rewrite (nbrs_lookup g n N HN).
Qed.

(** What [link] does to a store that has both nodes. *)
Lemma link_spec g a b :
  a ∈ dom g → b ∈ dom g →
  ∃ g', link g a b = Ok g' ∧ dom g' = dom g ∧ same_nodes g g' ∧
    ∀ x, nbrs g' x = nbrs g x ∪ (if decide (x = a) then {[b]} else ∅)
                              ∪ (if decide (x = b) then {[a]} else ∅).
Proof.
  intros [A HA]%elem_of_dom [B HB]%elem_of_dom. unfold link, deref. rewrite HA. cbn.
  destruct (decide (a = b)) as [Eab|Hab]; [subst b|].
  - rewrite lookup_insert_eq. eexists. split; [done|]. split_and!.
    + rewrite !dom_insert_L. apply elem_of_dom_2 in HA. set_solver.
    + intros n. destruct (decide (n = a)) as [->|Hn].
      * by rewrite lookup_insert_eq, HA.
      * by rewrite !lookup_insert_ne.
    + intros x. destruct (decide (x = a)) as [->|Hx].
      * rewrite (nbrs_lookup _ a _ (lookup_insert_eq _ _ _)), (nbrs_lookup g a A HA). cbn.
        set_solver.
      * unfold nbrs. rewrite !lookup_insert_ne by done. set_solver.
  - rewrite lookup_insert_ne, HB by done. eexists. split; [done|]. split_and!.
    + rewrite !dom_insert_L. apply elem_of_dom_2 in HA, HB. set_solver.
    + intros n. destruct (decide (n = b)) as [->|Hnb].
      * by rewrite lookup_insert_eq, HB.
      * rewrite lookup_insert_ne by done. destruct (decide (n = a)) as [->|Hna].
        -- by rewrite lookup_insert_eq, HA.
        -- by rewrite lookup_insert_ne.
    + intros x. destruct (decide (x = b)) as [->|Hxb].
      * rewrite (nbrs_lookup _ b _ (lookup_insert_eq _ _ _)), (nbrs_lookup g b B HB). cbn.
        rewrite decide_False by done. set_solver.
      * destruct (decide (x = a)) as [->|Hxa].
        -- rewrite (nbrs_lookup _ a (add_neighbor A b)), (nbrs_lookup g a A HA).
           ++ cbn. set_solver.
           ++ rewrite lookup_insert_ne by done. apply lookup_insert_eq.
        -- unfold nbrs. rewrite !lookup_insert_ne by done. set_solver.
Qed.

Lemma same_nodes_refl g : same_nodes g g.
Proof. by intros n. Qed.

Lemma same_nodes_trans g1 g2 g3 : same_nodes g1 g2 → same_nodes g2 g3 → same_nodes g1 g3.
Proof. intros H12 H23 n. by rewrite H23. Qed.

(** Linking two different nodes of the graph, the second in [node_set] or
    [node_set] empty, keeps the graph wired, with both in [node_set]. *)
Lemma link_wired nodes S S' g n r :
  wired nodes S g → n ∈ nodes → r ∈ nodes → r ≠ n → r ∈ S ∨ S = ∅ →
  S' ≡ S ∪ {[r]} ∪ {[n]} →
  ∃ g', link g n r = Ok g' ∧ wired nodes S' g' ∧ same_nodes g g'.
Proof.
  intros (Hdom & HS & Hin & Hun & Hlf & Hcon) Hn Hr Hrn HrS HS'.
  destruct (link_spec g n r) as (g' & Hlink & Hdom' & Hsame & Hnb);
    [by rewrite Hdom..|].
  exists g'. split_and!; [done| |done].
  assert (∀ x, nbrs g x ⊆ nbrs g' x) as Hgrow by (intros x; rewrite Hnb; set_solver).
  assert (undirected g') as Hun'.
  { intros a b. rewrite !Hnb. intros Hb. specialize (Hun a b).
    repeat case_decide; set_solver. }
  split_and!.
  - by rewrite Hdom'.
  - set_solver.
  - intros a. rewrite Hnb, Hdom', Hdom. specialize (Hin a). rewrite Hdom in Hin.
    repeat case_decide; set_solver.
  - done.
  - intros a. rewrite Hnb. specialize (Hlf a). repeat case_decide; set_solver.
  - assert (∀ x, x ∈ S' → reachable g' r x) as Hfrom.
    { intros x Hx. rewrite HS' in Hx.
      apply elem_of_union in Hx as [[Hx|Hx]%elem_of_union|Hx].
      - destruct HrS as [HrS| ->]; [|set_solver].
        apply (reachable_mono g g' r x Hgrow). by apply Hcon.
      - apply elem_of_singleton in Hx as ->. constructor.
      - apply elem_of_singleton in Hx as ->.
        apply (reachable_nbrs g' r r n); [constructor|].
        rewrite Hnb. rewrite (decide_True (P := r = r)) by done.
        set_solver. }
    intros a b Ha Hb. apply (reachable_trans g' a r b); [|by apply Hfrom].
    apply (reachable_sym g' r a Hun'). by apply Hfrom.
Qed.

Lemma paired_difference (s : gset NodeId) n : s ≠ ∅ → paired s → s ∖ {[n]} ≠ ∅.
Proof.
  intros Hne [->|(a & b & Hab & Ha & Hb)]; [done|]. destruct (decide (a = n)); set_solver.
Qed.

Lemma size_paired (s : gset NodeId) : 2 ≤ size s → s ≠ ∅ ∧ paired s.
Proof.
  intros Hs. unfold size, set_size in Hs. cbn in Hs.
  destruct (elements s) as [|a [|b l]] eqn:E; [cbn in Hs; lia..|].
  pose proof (NoDup_elements s) as Hnd. rewrite E in Hnd.
  assert (a ∈ s ∧ b ∈ s) as [Ha Hb].
  { rewrite <- !elem_of_elements, E. set_solver. }
  split; [set_solver|]. right. exists a, b. split_and!; [|done..].
  intros ->. apply NoDup_cons in Hnd as [Hnd _]. set_solver.
Qed.

Section MoreGraph.

Context (rnd : nat → nat).

Lemma rand_from_set_empty t : rand_from_set rnd t ∅ = Raise ValueError.
Proof.
  unfold rand_from_set. rewrite random_sample_raises; [done|].
  rewrite elements_empty. cbn. lia.
Qed.

(** The first loop, from any point of it. *)
Lemma connect_loop_spec nodes :
  2 ≤ size nodes → ∀ order t ns g,
  (∀ n, n ∈ order → n ∈ nodes) → wired nodes ns g → paired ns →
  ∃ ns' g', connect_loop rnd nodes order t ns g = Ok (t + length order, ns', g') ∧
    wired nodes ns' g' ∧ same_nodes g g' ∧ paired ns' ∧ ns ⊆ ns' ∧
    ∀ n, n ∈ order → n ∈ ns'.
Proof.
  intros Hsize. destruct (size_paired nodes Hsize) as [Hne Hpn].
  induction order as [|n order IH]; intros t ns g Hord Hw Hp.
  { exists ns, g. cbn. rewrite Nat.add_0_r. split_and!; [done..|apply same_nodes_refl|done|done|].
    intros n Hn. by apply elem_of_nil in Hn. }
  assert (n ∈ nodes) as Hn by (apply Hord; left).
  assert (∃ r ns1, (if decide (ns = ∅) then
             rand_n ← rand_from_set rnd t (nodes ∖ {[n]}); Ok (rand_n, ns ∪ {[rand_n]})
           else rand_n ← rand_from_set rnd t (ns ∖ {[n]}); Ok (rand_n, ns)) = Ok (r, ns1) ∧
          r ∈ nodes ∧ r ≠ n ∧ (r ∈ ns ∨ ns = ∅) ∧ ns1 ∪ {[n]} ≡ ns ∪ {[r]} ∪ {[n]})
    as (r & ns1 & Hdraw & Hr & Hrn & HrS & HS1).
  { destruct Hw as (_ & HS & _). case_decide as HSe.
    - destruct (rand_from_set_elem rnd t (nodes ∖ {[n]})) as (r & -> & Hr);
        [by apply paired_difference|].
      exists r, (ns ∪ {[r]}). cbn. split_and!; [done|set_solver..].
    - destruct (rand_from_set_elem rnd t (ns ∖ {[n]})) as (r & -> & Hr);
        [by apply paired_difference|].
      exists r, ns. cbn. split_and!; [done|set_solver..]. }
  destruct (link_wired nodes ns (ns1 ∪ {[n]}) g n r Hw Hn Hr Hrn HrS HS1)
    as (g1 & Hlink & Hw1 & Hsame1).
  destruct (IH (S t) (ns1 ∪ {[n]}) g1)
    as (ns' & g' & Hrun & Hw' & Hsame' & Hp' & Hsub & Hall).
  { intros m Hm. apply Hord. by right. }
  { done. }
  { right. exists r, n. split_and!; [done|set_solver..]. }
  exists ns', g'. split_and!.
  - cbn [connect_loop]. rewrite Hdraw. cbn. rewrite Hlink. cbn.
    rewrite Hrun. do 3 f_equal. cbn. lia.
  - done.
  - by apply (same_nodes_trans g g1 g').
  - done.
  - set_solver.
  - intros m [->|Hm]%elem_of_cons; [set_solver|by apply Hall].
Qed.

(** The second loop, from any point of it. *)
Lemma extra_loop_spec nodes :
  2 ≤ size nodes → ∀ count t g,
  wired nodes nodes g →
  ∃ g', extra_loop rnd nodes nodes count t g = Ok (t + 2 * count, g') ∧
    wired nodes nodes g' ∧ same_nodes g g'.
Proof.
  intros Hsize. destruct (size_paired nodes Hsize) as [Hne Hpn].
  induction count as [|count IH]; intros t g Hw.
  { exists g. cbn. rewrite Nat.add_0_r. split_and!; [done..|apply same_nodes_refl]. }
  destruct (rand_from_set_elem rnd t nodes Hne) as (n & Hdn & Hn).
  destruct (rand_from_set_elem rnd (S t) (nodes ∖ {[n]})) as (r & Hdr & Hr);
    [by apply paired_difference|].
  destruct (link_wired nodes nodes nodes g n r) as (g1 & Hlink & Hw1 & Hsame1);
    [done|done|set_solver..|].
  destruct (IH (S (S t)) g1 Hw1) as (g' & Hrun & Hw' & Hsame').
  exists g'. split_and!; [|done|by apply (same_nodes_trans g g1 g')].
  cbn [extra_loop]. rewrite Hdn. cbn. rewrite Hdr. cbn. rewrite Hlink. cbn.
  rewrite Hrun. do 2 f_equal. lia.
Qed.

(** A store of nodes without neighbours is wired, with nothing in
    [node_set]. *)
Lemma wired_fresh (g : gmap NodeId Node) :
  (∀ n N, g !! n = Some N → neighbors N = ∅) → wired (dom g) ∅ g.
Proof.
  intros Hfresh.
  assert (∀ n, nbrs g n = ∅) as Hnb.
  { intros n. unfold nbrs. destruct (g !! n) as [N|] eqn:HN; [by apply (Hfresh n)|done]. }
  split_and!; [done|set_solver|..].
  - intros a. rewrite Hnb. set_solver.
  - intros a b. rewrite Hnb. set_solver.
  - intros a. rewrite Hnb. set_solver.
  - set_solver.
Qed.

(** The two loops on the fresh nodes of main. *)
Lemma build_graph_spec nodes order E N t g :
  dom g = nodes → order ≡ₚ elements nodes → 2 ≤ size nodes →
  (∀ n N, g !! n = Some N → neighbors N = ∅) →
  ∃ g', build_graph rnd nodes order E N t g
          = Ok (t + length order + 2 * Z.to_nat (E - N + 1), g') ∧
        wired nodes nodes g' ∧ same_nodes g g'.
Proof.
  intros Hdom Hord Hsize Hfresh.
  destruct (connect_loop_spec nodes Hsize order t ∅ g)
    as (ns & g1 & Hrun1 & Hw1 & Hsame1 & _ & _ & Hall).
  { intros n Hn. rewrite Hord in Hn. by apply elem_of_elements in Hn. }
  { rewrite <- Hdom. by apply wired_fresh. }
  { by left. }
  assert (ns = nodes) as ->.
  { destruct Hw1 as (_ & Hsub & _). apply set_eq. intros n. split; [apply Hsub|].
    intros Hn. apply Hall. rewrite Hord. by apply elem_of_elements. }
  destruct (extra_loop_spec nodes Hsize (Z.to_nat (E - N + 1)) (t + length order) g1 Hw1)
    as (g' & Hrun2 & Hw' & Hsame').
  exists g'. split_and!; [|done|by apply (same_nodes_trans g g1 g')].
  unfold build_graph. rewrite Hrun1. cbn. by rewrite Hrun2.
Qed.

(** X13. The graph main builds: when the set of nodes has at least two
    members, none with a neighbour yet, the two loops return without an
    exception; the node objects are the same, with their ids, capacities
    and devices; every edge leads to a node of the set and is held by both
    of its ends; and no node is its own neighbour. *)
Theorem build_graph_simple nodes order E N t g :
  dom g = nodes → order ≡ₚ elements nodes → 2 ≤ size nodes →
  (∀ n N, g !! n = Some N → neighbors N = ∅) →
  ∃ t' g', build_graph rnd nodes order E N t g = Ok (t', g') ∧
    dom g' = nodes ∧ same_nodes g g' ∧
    edges_inside g' ∧ undirected g' ∧ loop_free g'.
Proof.
  intros Hdom Hord Hsize Hfresh.
  destruct (build_graph_spec nodes order E N t g Hdom Hord Hsize Hfresh)
    as (g' & Hrun & (Hdom' & _ & Hin & Hun & Hlf & _) & Hsame).
  eexists _, g'. by split_and!.
Qed.

(** X14. The graph main builds is connected: under the same conditions,
    every node of the set can be reached from every other along the edges
    the two loops have made. *)
Theorem build_graph_connected nodes order E N t g :
  dom g = nodes → order ≡ₚ elements nodes → 2 ≤ size nodes →
  (∀ n N, g !! n = Some N → neighbors N = ∅) →
  ∃ t' g', build_graph rnd nodes order E N t g = Ok (t', g') ∧ connected g'.
Proof.
  intros Hdom Hord Hsize Hfresh.
  destruct (build_graph_spec nodes order E N t g Hdom Hord Hsize Hfresh)
    as (g' & Hrun & (Hdom' & _ & _ & _ & _ & Hcon) & _).
  eexists _, g'. split; [done|]. intros a b Ha Hb. rewrite Hdom' in Ha, Hb. by apply Hcon.
Qed.

(** X15. A single node cannot be wired: with one node in the set, the
    first loop asks [rand_from_set] for a member of the empty set, and
    main stops with [ValueError], whatever the number of extra edges. *)
Theorem build_graph_single_node nodes order E N t g :
  size nodes = 1 → order ≡ₚ elements nodes →
  build_graph rnd nodes order E N t g = Raise ValueError.
Proof.
  intros Hsize Hord. apply size_1_elem_of in Hsize as [n Hn].
  apply leibniz_equiv in Hn. subst nodes. rewrite elements_singleton in Hord.
  apply Permutation_singleton_r in Hord. subst order.
  unfold build_graph. cbn [connect_loop]. rewrite decide_True by done.
  rewrite difference_diag_L, rand_from_set_empty. done.
Qed.

End MoreGraph.

(** ** From the resources to the end of the assignment *)

Lemma capacity_empty : capacity ∅ = 0%Z.
Proof. unfold capacity. by rewrite map_to_list_empty. Qed.

Lemma capacity_insert_fresh (g : gmap NodeId Node) n N :
  g !! n = None → capacity (<[n := N]> g) = (resources N + capacity g)%Z.
Proof.
  intros Hn. unfold capacity.
  by rewrite (total_perm _ _ (fmap_Permutation _ _ _
    (fmap_Permutation snd _ _ (map_to_list_insert g n N Hn)))).
Qed.

Lemma same_nodes_lookup g g' n N' :
  same_nodes g g' → g' !! n = Some N' →
  ∃ N, g !! n = Some N ∧ id N' = id N ∧ resources N' = resources N ∧
       devices N' = devices N.
Proof.
  intros Hs HN'. specialize (Hs n). rewrite HN' in Hs. cbn in Hs.
  destruct (g !! n) as [N|]; [|done]. cbn in Hs. exists N. by simplify_eq.
Qed.

Lemma same_nodes_capacity g g' : same_nodes g g' → capacity g' = capacity g.
Proof.
  intros Hs.
  assert (∀ m : gmap NodeId Node,
            capacity m = total ((map_to_list (resources <$> m)).*2)) as Hcap.
  { intros m. unfold capacity. apply total_perm.
    rewrite map_to_list_fmap, <- !list_fmap_compose. done. }
  rewrite !Hcap. f_equal. f_equal. f_equal. apply map_eq. intros n.
  rewrite !lookup_fmap. specialize (Hs n).
  destruct (g' !! n) as [N'|], (g !! n) as [N|]; cbn in *; try done.
  injection Hs as _ Hr _. by rewrite Hr.
Qed.

(** The set comprehension makes one node for each index, with the
    resources of that index, no device and no neighbour. *)
Lemma new_nodes_spec resources :
  ∀ count last_id i g,
  i + count ≤ length resources →
  (∀ n, n ∈ dom g → n < last_id) →
  ∃ g', new_nodes resources last_id i count g = Ok g' ∧
    dom g' = dom g ∪ list_to_set (seq last_id count) ∧
    (∀ n N, g' !! n = Some N →
       g !! n = Some N ∨ (id N = n ∧ devices N = [] ∧ neighbors N = ∅)) ∧
    capacity g' = (capacity g + total (take count (drop i resources)))%Z.
Proof.
  induction count as [|count IH]; intros last_id i g Hlen Hdom.
  { exists g. split_and!; [done|cbn; set_solver|by left|].
    change (take 0 (drop i resources)) with (@nil Z). change (total []) with 0%Z. lia. }
  destruct (lookup_lt_is_Some_2 resources i) as [r Hr]; [lia|].
  assert (g !! last_id = None) as Hfresh.
  { apply not_elem_of_dom. intros Hin. apply Hdom in Hin. lia. }
  destruct (IH (S last_id) (S i) (<[last_id := Node_init last_id r]> g))
    as (g' & Hrun & Hdom' & Hnodes & Hcap).
  { lia. }
  { intros n. rewrite dom_insert_L. intros [->%elem_of_singleton|Hn]%elem_of_union; [lia|].
    apply Hdom in Hn. lia. }
  exists g'. split_and!.
  - cbn [new_nodes]. unfold list_get. rewrite Hr. cbn. exact Hrun.
  - rewrite Hdom', dom_insert_L. cbn [seq list_to_set]. set_solver.
  - intros n N HN. destruct (Hnodes n N HN) as [Hin|Hnew]; [|by right].
    destruct (decide (n = last_id)) as [->|Hne].
    + rewrite lookup_insert_eq in Hin. injection Hin as <-. by right.
    + rewrite lookup_insert_ne in Hin by done. by left.
  - rewrite Hcap, (capacity_insert_fresh g last_id _ Hfresh).
    rewrite (drop_S resources r i Hr). cbn. unfold total. cbn. lia.
Qed.

Section MoreMain.

Context (priority : Device → Priority) (connected_node : Device → NodeId).
Context (rnd : nat → nat).

(** X16. main places every device: for [2 <= N <= U], whatever the random
    draws, the priorities, the nodes the devices are connected to and the
    order in which the sets are iterated, [get_resources] returns, the
    nodes are made, the two loops wire them, and the assignment phase,
    reading the random stream from where the loops have left it, comes to
    its end with no exception and with each of the [U] devices in the
    collection of a node. *)
Theorem main_places_every_device (t t1 : nat) (N U E : Z) (order : list NodeId)
    (ds : list Device) :
  (2 ≤ N ≤ U)%Z →
  order ≡ₚ seq 0 (Z.to_nat N) →
  Z.of_nat (length ds) = U →
  (∀ d, connected_node d < Z.to_nat N) →
  ∃ resources g0 t2 g k c,
    get_resources rnd t N U = Ok resources ∧
    new_nodes resources 0 0 (Z.to_nat N) ∅ = Ok g0 ∧
    build_graph rnd (dom g0) order E N t1 g0 = Ok (t2, g) ∧
    run priority connected_node (λ i, rnd (t2 + i)) k (initial g ds) = Ok c ∧
    pc c = Main ∧ pending c = [] ∧ held (world c) ≡ₚ ds.
Proof.
  intros HNU Hord Hds Horigin.
  destruct (get_resources_spec rnd t N U) as (resources & Hres & Hlen & _ & Htotal); [lia|].
  destruct (new_nodes_spec resources (Z.to_nat N) 0 0 ∅)
    as (g0 & Hnew & Hdom0 & Hnodes0 & Hcap0).
  { lia. }
  { intros n Hn. rewrite dom_empty_L in Hn. set_solver. }
  rewrite dom_empty_L, (left_id_L ∅ (∪)) in Hdom0.
  rewrite capacity_empty, drop_0, firstn_all2 in Hcap0 by lia.
  assert (∀ n N0, g0 !! n = Some N0 → devices N0 = [] ∧ neighbors N0 = ∅) as Hfresh.
  { intros n N0 HN0. destruct (Hnodes0 n N0 HN0) as [Hin|(_ & ? & ?)]; [|done].
    by rewrite lookup_empty in Hin. }
  assert (NoDup (seq 0 (Z.to_nat N))) as Hnd by apply NoDup_seq.
  destruct (build_graph_spec rnd (dom g0) order E N t1 g0) as (g & Hbuild & Hw & Hsame).
  { done. }
  { rewrite Hord, Hdom0. symmetry. by apply elements_list_to_set. }
  { rewrite Hdom0, size_list_to_set, length_seq by done. lia. }
  { intros n N0 HN0. by apply (Hfresh n N0). }
  destruct Hw as (Hdom & _ & Hin & _ & _ & Hcon).
  destruct (placement priority connected_node (λ i, rnd (t1 + length order
              + 2 * Z.to_nat (E - N + 1) + i)) g ds)
    as (_ & k & c & Hrun & Hpc & Hpend & Hheld).
  - split.
    + intros n N0 HN0. rewrite <- (nbrs_lookup g n N0 HN0). apply Hin.
    + intros d. rewrite Hdom, Hdom0. apply elem_of_list_to_set, elem_of_seq.
      specialize (Horigin d). lia.
  - intros n N0 HN0. destruct (same_nodes_lookup g0 g n N0 Hsame HN0) as (N1 & HN1 & _ & _ & ->).
    by apply (Hfresh n N1).
  - intros d n Hn. rewrite Hdom in Hn. apply Hcon; [|done].
    rewrite Hdom0. apply elem_of_list_to_set, elem_of_seq. specialize (Horigin d). lia.
  - rewrite (same_nodes_capacity g0 g Hsame), Hcap0. lia.
  - exists resources, g0, (t1 + length order + 2 * Z.to_nat (E - N + 1)), g, k, c.
    by split_and!.
Qed.

End MoreMain.

(** * Concrete runs *)

Lemma add_device_preserves_capacity_witness :
  (Z.of_nat (length (devices node_ex)) ≤ resources node_ex)%Z ∧
  (∀ d, ∃ n' r, add_device prio_ex node_ex d = Ok (n', r) ∧ resources n' = resources node_ex ∧
                (Z.of_nat (length (devices n')) ≤ resources n')%Z) ∧
  (∀ ds, ∃ n', add_devices prio_ex node_ex ds = Ok n' ∧ resources n' = resources node_ex ∧
               (Z.of_nat (length (devices n')) ≤ resources n')%Z).
Proof.
  assert (Z.of_nat (length (devices node_ex)) ≤ resources node_ex)%Z as H by (cbn; lia).
  split; [exact H|]. apply (add_device_preserves_capacity prio_ex node_ex H).
Defined.

Lemma heap_inv_node_ex : heap_inv prio_ex (devices node_ex).
Proof.
  intros k x y Hk Hx Hy. destruct k as [|[|k]]; [lia| |done].
  vm_compute in Hx, Hy. simplify_eq. unfold Device_le. cbn. lia.
Qed.

Lemma add_device_evicts_iff_stronger_witness :
  heap_inv prio_ex (devices node_ex) ∧ NoDup (devices node_ex) ∧
  (resources node_ex ≤ Z.of_nat (length (devices node_ex)))%Z ∧
  ∃ n' e, add_device prio_ex node_ex 2 = Ok (n', Some e) ∧
    (e ≠ 2 ↔ ∃ w, weakest prio_ex (devices node_ex) w ∧
                  (value (prio_ex w) < value (prio_ex 2))%Z) ∧
    (∀ w, weakest prio_ex (devices node_ex) w → value (prio_ex w) = value (prio_ex 2) →
          e = 2 ∧ n' = node_ex) ∧
    (e ≠ 2 → (value (prio_ex e) < value (prio_ex 2))%Z ∧
             2 ∈ devices n' ∧ e ∉ devices n').
Proof.
  assert (NoDup (devices node_ex)) as Hnd by (cbn; compute_done).
  assert (resources node_ex ≤ Z.of_nat (length (devices node_ex)))%Z as Hfull by (cbn; lia).
  split_and!; [apply heap_inv_node_ex|exact Hnd|exact Hfull|].
  apply (add_device_evicts_iff_stronger prio_ex node_ex 2 heap_inv_node_ex Hnd Hfull).
Defined.

Lemma add_device_rejection_unchanged_witness :
  add_device prio_ex node_ex 5 = Ok (node_ex, Some 5) ∧
  node_ex = node_ex ∧ devices node_ex = devices node_ex.
Proof.
  assert (add_device prio_ex node_ex 5 = Ok (node_ex, Some 5)) as H
    by (vm_compute; reflexivity).
  split; [exact H|]. apply (add_device_rejection_unchanged prio_ex node_ex node_ex 5 H).
Defined.

Lemma get_resources_error_iff_witness :
  (0 < 3)%Z ∧ (0 < 7)%Z ∧
  (get_resources rnd_ex 0 3 7 = Raise ValueError ↔ (7 < 3)%Z) ∧
  ((3 ≤ 7)%Z → ∃ l, get_resources rnd_ex 0 3 7 = Ok l).
Proof.
  split_and!; [lia|lia|apply (get_resources_error_iff rnd_ex 0 3 7); lia..].
Defined.

Lemma graph_closed_ex : graph_closed origin_ex graph_ex.
Proof.
  split.
  - change (map_Forall (λ _ N, neighbors N ⊆ dom graph_ex) graph_ex). compute_done.
  - intros d. unfold origin_ex. compute_done.
Qed.

Lemma unassigned_ex : unassigned graph_ex.
Proof. change (map_Forall (λ _ N, devices N = []) graph_ex). compute_done. Qed.

Lemma run_config_ex k :
  k ≤ 30 → run prio_ex origin_ex rnd_ex k (initial graph_ex [0; 1]) = Ok (config_ex k).
Proof.
  intros Hk. do 31 (destruct k as [|k]; [vm_compute; reflexivity|]). lia.
Qed.

Lemma search_terminates_witness :
  graph_closed origin_ex graph_ex ∧ pc (config_ex 8) = Call 0 ∧
  (∃ j c' placed evicted,
     run prio_ex origin_ex rnd_ex j (config_ex 8) = Ok c' ∧ pc c' = Done 0 placed evicted ∧
     j ≤ 2 * size (dom graph_ex)
         + length (frontier (probe_of origin_ex (world (config_ex 8)) 0)) + 2 ∧
     length (trail c') ≤ size (dom graph_ex) ∧
     (∀ n, placed = Some n → ∃ N, nodes (world c') !! n = Some N ∧ 0 ∈ devices N) ∧
     (placed = None → evicted = None ∧
        length (frontier (probe_of origin_ex (world c') 0))
        ≤ distance (probe_of origin_ex (world c') 0))) ∧
  (∃ j c', run prio_ex origin_ex rnd_ex j (config_ex 8) = Ok c' ∧ pc c' = Main).
Proof.
  split; [apply graph_closed_ex|]. split; [vm_compute; reflexivity|].
  destruct (search_terminates prio_ex origin_ex rnd_ex graph_ex [0; 1] 8 graph_closed_ex)
    as (c & Hrun & Hc).
  rewrite (run_config_ex 8) in Hrun by lia. injection Hrun as <-.
  apply (Hc 0 (dom graph_ex)).
  - vm_compute. reflexivity.
  - intros n. apply (reachable_dom origin_ex); [apply graph_closed_ex|compute_done].
Defined.



(** In the restarted search of device 0 no node has been visited yet, and
    the frontier entry for distance 1 is not empty. *)
Lemma restart_frontier_not_union :
  run_ex 9 [0; 1] = Ok (config_ex 9) ∧ searching (config_ex 9) = Some 0 ∧
  trail (config_ex 9) = [] ∧
  level (frontier (probe_of origin_ex (world (config_ex 9)) 0)) 1 = {[1]} ∧
  level (frontier (probe_of origin_ex (world (config_ex 9)) 0)) 1
  ≠ ⋃ (nbrs graph_ex <$> tried_at (trail (config_ex 9)) 0).
Proof.
  split_and!; [vm_compute; reflexivity..|].
  intros H. apply (f_equal (λ s : gset nat, bool_decide (1 ∈ s))) in H.
  vm_compute in H. discriminate.
Qed.

Lemma frontier_growth_witness :
  graph_closed origin_ex graph_ex ∧ searching (config_ex 3) = Some 0 ∧
  entry (config_ex 3) = [(0, {[origin_ex 0]})] ∧
  visited (probe_of origin_ex (world (config_ex 3)) 0)
  = list_to_set (trail (config_ex 3)).*2 ∧
  NoDup (trail (config_ex 3)).*2 ∧
  (∀ j, level (frontier (probe_of origin_ex (world (config_ex 3)) 0)) (S j)
        = level (entry (config_ex 3)) (S j)
          ∪ ⋃ (nbrs graph_ex <$> tried_at (trail (config_ex 3)) j)) ∧
  (entry (config_ex 3) = [(0, {[origin_ex 0]})] →
   ∀ j, level (frontier (probe_of origin_ex (world (config_ex 3)) 0)) (S j)
        = ⋃ (nbrs graph_ex <$> tried_at (trail (config_ex 3)) j)).
Proof.
  split; [apply graph_closed_ex|]. split; [vm_compute; reflexivity|].
  split; [vm_compute; reflexivity|].
  destruct (frontier_growth prio_ex origin_ex rnd_ex graph_ex [0; 1] 3 graph_closed_ex)
    as (c & Hrun & Hc).
  rewrite (run_config_ex 3) in Hrun by lia. injection Hrun as <-.
  apply (Hc 0). vm_compute. reflexivity.
Defined.

Lemma device_in_one_node_witness :
  graph_closed origin_ex graph_ex ∧ unassigned graph_ex ∧ NoDup [0; 1] ∧
  (∀ d n1 n2 N1 N2,
     nodes (world (config_ex 30)) !! n1 = Some N1 →
     nodes (world (config_ex 30)) !! n2 = Some N2 →
     d ∈ devices N1 → d ∈ devices N2 → n1 = n2) ∧
  (∀ n N, nodes (world (config_ex 30)) !! n = Some N → NoDup (devices N)) ∧
  (∀ d n N, d ∈ unplaced (config_ex 30) → nodes (world (config_ex 30)) !! n = Some N →
            d ∉ devices N).
Proof.
  assert (NoDup [0; 1]) as Hnd by compute_done.
  destruct (device_in_one_node prio_ex origin_ex rnd_ex graph_ex [0; 1] 30
              graph_closed_ex unassigned_ex Hnd)
    as (c & Hrun & Hc1 & Hc2 & Hc3).
  rewrite (run_config_ex 30) in Hrun by lia.
  assert (c = config_ex 30) as -> by congruence.
  exact (conj graph_closed_ex (conj unassigned_ex (conj Hnd (conj Hc1 (conj Hc2 Hc3))))).
Defined.

Lemma heap_inv_graph_ex n N : graph_ex !! n = Some N → heap_inv prio_ex (devices N).
Proof. intros HN. rewrite (unassigned_ex n N HN). apply heap_inv_nil. Qed.

Lemma within_capacity_graph_ex n N :
  graph_ex !! n = Some N →
  heap_inv prio_ex (devices N) ∧ (Z.of_nat (length (devices N)) ≤ resources N)%Z.
Proof.
  intros HN. split; [by apply (heap_inv_graph_ex n)|]. revert n N HN.
  change (map_Forall (λ _ N, (Z.of_nat (length (devices N)) ≤ resources N)%Z) graph_ex).
  compute_done.
Qed.

Lemma within_reach_graph_ex d n : n ∈ dom graph_ex → reachable graph_ex (origin_ex d) n.
Proof.
  intros Hn. assert (dom graph_ex = {[0; 1]}) as Hdom by compute_done.
  rewrite Hdom in Hn. unfold origin_ex.
  apply elem_of_union in Hn as [->%elem_of_singleton| ->%elem_of_singleton];
    [constructor|].
  apply (reachable_nbrs graph_ex 0 0 1); [constructor|]. compute_done.
Qed.

Lemma fresh_ex_no_neighbors n N : fresh_ex !! n = Some N → neighbors N = ∅.
Proof.
  revert n N. change (map_Forall (λ _ N, neighbors N = ∅) fresh_ex). compute_done.
Qed.

Lemma get_resources_partition_witness :
  (1 ≤ 3 ≤ 7)%Z ∧
  ∃ l, get_resources rnd_ex 0 3 7 = Ok l ∧
       Z.of_nat (length l) = 3%Z ∧ Forall (λ x, 1 ≤ x)%Z l ∧ total l = 7%Z.
Proof.
  assert (1 ≤ 3 ≤ 7)%Z as H by lia.
  exact (conj H (get_resources_partition rnd_ex 0 3 7 H)).
Defined.

Lemma add_device_keeps_strongest_witness :
  heap_inv prio_ex (devices node_ex) ∧
  (resources node_ex ≤ Z.of_nat (length (devices node_ex)))%Z ∧
  ∃ n' e, add_device prio_ex node_ex 2 = Ok (n', Some e) ∧
    e ∈ 2 :: devices node_ex ∧
    (∀ y, y ∈ 2 :: devices node_ex → Device_le prio_ex e y) ∧
    (∀ y, y ∈ devices n' → Device_le prio_ex e y) ∧
    heap_inv prio_ex (devices n').
Proof.
  assert (resources node_ex ≤ Z.of_nat (length (devices node_ex)))%Z as Hfull by (cbn; lia).
  exact (conj heap_inv_node_ex (conj Hfull
           (add_device_keeps_strongest prio_ex node_ex 2 heap_inv_node_ex Hfull))).
Defined.


Lemma frontier_rings_witness :
  graph_closed origin_ex graph_ex ∧
  ∃ c, run prio_ex origin_ex rnd_ex 9 (initial graph_ex [0; 1]) = Ok c ∧
    ∀ d j n, n ∈ level (frontier (probe_of origin_ex (world c) d)) j →
             walk graph_ex (origin_ex d) j n.
Proof.
  exact (conj graph_closed_ex
           (frontier_rings prio_ex origin_ex rnd_ex graph_ex [0; 1] 9 graph_closed_ex)).
Defined.

Lemma unplaced_only_if_all_reject_witness :
  graph_closed origin_ex graph_ex ∧
  (∀ n N, graph_ex !! n = Some N → heap_inv prio_ex (devices N)) ∧
  ∃ c, run prio_ex origin_ex rnd_ex 29 (initial graph_ex [0; 1; 2]) = Ok c ∧
    ∀ d, pc c = Done d None None →
      ∀ n, reachable graph_ex (origin_ex d) n →
        (∃ j, (j, n) ∈ trail c) ∧
        ∃ N, nodes (world c) !! n = Some N ∧ rejects prio_ex N d.
Proof.
  exact (conj graph_closed_ex (conj heap_inv_graph_ex
           (unplaced_only_if_all_reject prio_ex origin_ex rnd_ex graph_ex [0; 1; 2] 29
              graph_closed_ex heap_inv_graph_ex))).
Defined.

Lemma phase_keeps_capacity_witness :
  graph_closed origin_ex graph_ex ∧
  (∀ n N, graph_ex !! n = Some N →
     heap_inv prio_ex (devices N) ∧ (Z.of_nat (length (devices N)) ≤ resources N)%Z) ∧
  ∃ c, run prio_ex origin_ex rnd_ex 12 (initial graph_ex [0; 1; 2]) = Ok c ∧
    ∀ n N, nodes (world c) !! n = Some N →
      heap_inv prio_ex (devices N) ∧
      (Z.of_nat (length (devices N)) ≤ resources N)%Z ∧
      resources <$> graph_ex !! n = Some (resources N).
Proof.
  exact (conj graph_closed_ex (conj within_capacity_graph_ex
           (phase_keeps_capacity prio_ex origin_ex rnd_ex graph_ex [0; 1; 2] 12
              graph_closed_ex within_capacity_graph_ex))).
Defined.

Lemma phase_conserves_devices_witness :
  graph_closed origin_ex graph_ex ∧ unassigned graph_ex ∧
  ∃ c, run prio_ex origin_ex rnd_ex 12 (initial graph_ex [0; 1; 2]) = Ok c ∧
       unplaced c ++ held (world c) ⊆+ [0; 1; 2].
Proof.
  exact (conj graph_closed_ex (conj unassigned_ex
           (phase_conserves_devices prio_ex origin_ex rnd_ex graph_ex [0; 1; 2] 12
              graph_closed_ex unassigned_ex))).
Defined.

Lemma every_device_is_placed_witness :
  graph_closed origin_ex graph_ex ∧ unassigned graph_ex ∧
  (∀ d n, n ∈ dom graph_ex → reachable graph_ex (origin_ex d) n) ∧
  capacity graph_ex = Z.of_nat (length [0; 1]) ∧
  (∀ k, ∃ c, run prio_ex origin_ex rnd_ex k (initial graph_ex [0; 1]) = Ok c ∧
     (∀ d, pc c ≠ Done d None None) ∧ unplaced c ++ held (world c) ≡ₚ [0; 1]) ∧
  (∃ k c, run prio_ex origin_ex rnd_ex k (initial graph_ex [0; 1]) = Ok c ∧
     pc c = Main ∧ pending c = [] ∧ held (world c) ≡ₚ [0; 1]).
Proof.
  assert (capacity graph_ex = Z.of_nat (length [0; 1])) as Hcap by (vm_compute; reflexivity).
  exact (conj graph_closed_ex (conj unassigned_ex (conj within_reach_graph_ex (conj Hcap
           (every_device_is_placed prio_ex origin_ex rnd_ex graph_ex [0; 1]
              graph_closed_ex unassigned_ex within_reach_graph_ex Hcap))))).
Defined.

Lemma assignment_phase_ends_witness :
  graph_closed origin_ex graph_ex ∧
  ∃ k c, run prio_ex origin_ex rnd_ex k (initial graph_ex [0; 1; 2]) = Ok c ∧
         pc c = Main ∧ pending c = [] ∧
         ∀ j, run prio_ex origin_ex rnd_ex (k + j) (initial graph_ex [0; 1; 2]) = Ok c.
Proof.
  exact (conj graph_closed_ex
           (assignment_phase_ends prio_ex origin_ex rnd_ex graph_ex [0; 1; 2] graph_closed_ex)).
Defined.

Lemma build_graph_simple_witness :
  dom fresh_ex = dom fresh_ex ∧ elements (dom fresh_ex) ≡ₚ elements (dom fresh_ex) ∧
  2 ≤ size (dom fresh_ex) ∧
  (∀ n N, fresh_ex !! n = Some N → neighbors N = ∅) ∧
  ∃ t' g', build_graph rnd_ex (dom fresh_ex) (elements (dom fresh_ex)) 3 2 0 fresh_ex
             = Ok (t', g') ∧
    dom g' = dom fresh_ex ∧ same_nodes fresh_ex g' ∧
    edges_inside g' ∧ undirected g' ∧ loop_free g'.
Proof.
  assert (2 ≤ size (dom fresh_ex)) as Hsize by compute_done.
  exact (conj eq_refl (conj (reflexivity _) (conj Hsize (conj fresh_ex_no_neighbors
           (build_graph_simple rnd_ex (dom fresh_ex) (elements (dom fresh_ex)) 3 2 0 fresh_ex
              eq_refl (reflexivity _) Hsize fresh_ex_no_neighbors))))).
Defined.

Lemma build_graph_connected_witness :
  dom fresh_ex = dom fresh_ex ∧ elements (dom fresh_ex) ≡ₚ elements (dom fresh_ex) ∧
  2 ≤ size (dom fresh_ex) ∧
  (∀ n N, fresh_ex !! n = Some N → neighbors N = ∅) ∧
  ∃ t' g', build_graph rnd_ex (dom fresh_ex) (elements (dom fresh_ex)) 3 2 0 fresh_ex
             = Ok (t', g') ∧ connected g'.
Proof.
  assert (2 ≤ size (dom fresh_ex)) as Hsize by compute_done.
  exact (conj eq_refl (conj (reflexivity _) (conj Hsize (conj fresh_ex_no_neighbors
           (build_graph_connected rnd_ex (dom fresh_ex) (elements (dom fresh_ex)) 3 2 0 fresh_ex
              eq_refl (reflexivity _) Hsize fresh_ex_no_neighbors))))).
Defined.

Lemma build_graph_single_node_witness :
  size ({[0]} : gset NodeId) = 1 ∧ elements ({[0]} : gset NodeId) ≡ₚ elements ({[0]} : gset NodeId) ∧
  build_graph rnd_ex {[0]} (elements ({[0]} : gset NodeId)) 1 1 0 {[0 := Node_init 0 3]}
    = Raise ValueError.
Proof.
  assert (size ({[0]} : gset NodeId) = 1) as Hsize by apply size_singleton.
  exact (conj Hsize (conj (reflexivity _)
           (build_graph_single_node rnd_ex {[0]} (elements ({[0]} : gset NodeId)) 1 1 0
              {[0 := Node_init 0 3]} Hsize (reflexivity _)))).
Defined.

Lemma main_places_every_device_witness :
  (2 ≤ 2 ≤ 3)%Z ∧ [0; 1] ≡ₚ seq 0 (Z.to_nat 2) ∧ Z.of_nat (length [0; 1; 2]) = 3%Z ∧
  (∀ d, origin_ex d < Z.to_nat 2) ∧
  ∃ resources g0 t2 g k c,
    get_resources rnd_ex 0 2 3 = Ok resources ∧
    new_nodes resources 0 0 (Z.to_nat 2) ∅ = Ok g0 ∧
    build_graph rnd_ex (dom g0) [0; 1] 2 2 5 g0 = Ok (t2, g) ∧
    run prio_ex origin_ex (λ i, rnd_ex (t2 + i)) k (initial g [0; 1; 2]) = Ok c ∧
    pc c = Main ∧ pending c = [] ∧ held (world c) ≡ₚ [0; 1; 2].
Proof.
  assert (2 ≤ 2 ≤ 3)%Z as H1 by lia.
  assert ([0; 1] ≡ₚ seq 0 (Z.to_nat 2)) as H2 by reflexivity.
  assert (Z.of_nat (length [0; 1; 2]) = 3%Z) as H3 by reflexivity.
  assert (∀ d, origin_ex d < Z.to_nat 2) as H4 by (intros d; unfold origin_ex; cbn; lia).
  exact (conj H1 (conj H2 (conj H3 (conj H4
           (main_places_every_device prio_ex origin_ex rnd_ex 0 5 2 3 2 [0; 1] [0; 1; 2]
              H1 H2 H3 H4))))).
Defined.
